(** * The Historical Court: state tools, verdict file naming and workflow tree

    A shallow embedding of [workflow_agents/agent.py].  The Python module
    defines three tools that agents call ([update_research_data],
    [set_state_value], [write_verdict_file]) and a tree of agents built
    from the ADK composers ([SequentialAgent], [LoopAgent],
    [ParallelAgent]).

    Python strings are modelled as [string], one character being one
    byte; the session state, a Python dict, as a [gmap string pyval]; a
    tool as a function that threads the world (session state, log records,
    file system) and either returns a value or raises a Python exception.
    The file system operations themselves are taken to succeed. *)

From stdpp Require Import gmap strings list fin_maps.
From Stdlib Require Import Ascii.

(** ** Python values held by the session state *)

(** The state tools distinguish exactly three shapes of value: [None], a
    [str] and a [list] (whose items may again be any value). *)
#[warnings="-register-all"]
Inductive pyval : Type :=
  | PNone
  | PStr (s : string)
  | PList (items : list pyval).

(** The exceptions the modelled statements can raise. *)
Inductive pyexn : Type :=
  | TypeError
  | IndexError.

(** [isinstance(v, list)] and [v is None]. *)
Definition is_list (v : pyval) : bool :=
  match v with PList _ => true | _ => false end.

Definition is_none (v : pyval) : bool :=
  match v with PNone => true | _ => false end.

(** ** The world a tool runs in *)

(** [state] is [tool_context.state]; [log] collects the records passed to
    [logging.info], oldest first; [files] maps a path to the text last
    written to it and [dirs] is the set of directories that exist. *)
Record World : Type := mkWorld {
  state : gmap string pyval;
  log : list string;
  files : gmap string string;
  dirs : gset string
}.

Definition empty_world : World := mkWorld ∅ [] ∅ ∅.

Definition with_state (f : gmap string pyval → gmap string pyval) (w : World) : World :=
  mkWorld (f (state w)) (log w) (files w) (dirs w).

(** A tool call: it always leaves a world behind, and either returns a
    result or raises. *)
Definition Tool (A : Type) : Type := World → World * (pyexn + A).

Definition tool_ret {A} (a : A) : Tool A := λ w, (w, inr a).

Definition tool_raise {A} (e : pyexn) : Tool A := λ w, (w, inl e).

Definition tool_bind {A B} (m : Tool A) (k : A → Tool B) : Tool B :=
  λ w, match m w with
       | (w', inr a) => k a w'
       | (w', inl e) => (w', inl e)
       end.

Notation "x <- m ;; k" := (tool_bind m (λ x, k))
  (at level 100, m at next level, right associativity).
Notation "m ;;; k" := (tool_bind m (λ _, k))
  (at level 100, right associativity).

(** [tool_context.state.get(field, default)] *)
Definition state_get (field : string) (default : pyval) : Tool pyval :=
  λ w, (w, inr (match state w !! field with Some v => v | None => default end)).

(** [tool_context.state[field] = v] *)
Definition state_set (field : string) (v : pyval) : Tool unit :=
  λ w, (with_state (insert field v) w, inr tt).

(** [logging.info(msg)] *)
Definition logging_info (msg : string) : Tool unit :=
  λ w, (mkWorld (state w) (log w ++ [msg]) (files w) (dirs w), inr tt).

(** ** [str.join] *)

(** The items of a list when all of them are strings. *)
Fixpoint str_items (l : list pyval) : option (list string) :=
  match l with
  | [] => Some []
  | PStr s :: r =>
      match str_items r with
      | Some ss => Some (s :: ss)
      | None => None
      end
  | _ :: _ => None
  end.

(** [sep.join(l)]: raises [TypeError] when an item is not a [str]. *)
Definition str_join (sep : string) (l : list pyval) : Tool string :=
  match str_items l with
  | Some ss => tool_ret (String.concat sep ss)
  | None => tool_raise TypeError
  end.

(** ** The state tools *)

(** The line feed character and the separator written between entries,
    ["\n\n---\n"] in the source. *)
Definition nl : string := String (ascii_of_nat 10) EmptyString.

Definition separator : string := nl +:+ nl +:+ "---" +:+ nl.

(** The value every successful tool call returns: [{"status": "success"}]. *)
Definition status_success : gmap string string := {[ "status" := "success" ]}.

(** [update_research_data(tool_context, field, new_info)]: the current
    value is read with the default [""], [None] is replaced by [""], a
    list is joined with line feeds, and the f-string puts the separator
    between the current text and [new_info].  Formatting a [str] gives
    the string itself; [None], which would format as ["None"], cannot
    reach the f-string. *)
Definition update_research_data (field new_info : string) : Tool (gmap string string) :=
  current_data <- state_get field (PStr "") ;;
  let current_data := if is_none current_data then PStr "" else current_data in
  current_data <- (match current_data with
                   | PList l => str_join nl l
                   | PStr s => tool_ret s
                   | PNone => tool_ret "None"
                   end) ;;
  let updated_data := current_data +:+ separator +:+ new_info in
  state_set field (PStr updated_data) ;;;
  logging_info ("Updated field: " +:+ field) ;;;
  tool_ret status_success.

(** [set_state_value(tool_context, field, value)] *)
Definition set_state_value (field : string) (value : pyval) : Tool (gmap string string) :=
  state_set field value ;;;
  tool_ret status_success.

(** ** Deriving the verdict file name *)

(** The regular expression class [[a-zA-Z0-9]]: the ASCII letters and
    digits.  Every other character, ASCII or not, is outside of it. *)
Definition is_alnum (c : ascii) : bool :=
  let n := nat_of_ascii c in
  (97 <=? n) && (n <=? 122) || (65 <=? n) && (n <=? 90) || (48 <=? n) && (n <=? 57).

(** The class [[^a-zA-Z0-9]] and the pattern [_]. *)
Definition not_alnum (c : ascii) : bool := negb (is_alnum c).

Definition is_underscore (c : ascii) : bool :=
  if decide (c = "_"%char) then true else false.

(** [re.sub(p, repl, s)] for a pattern [p] that is one character class:
    every matching character is replaced. *)
Fixpoint re_sub_class (p : ascii → bool) (repl : ascii) (s : list ascii) : list ascii :=
  match s with
  | [] => []
  | c :: r => (if p c then repl else c) :: re_sub_class p repl r
  end.

(** [re.sub(p+, repl, s)] for a character class [p]: the scan goes left to
    right and each maximal run of matching characters is replaced by one
    [repl].  [in_run] tells that the previous character belonged to the
    run being consumed. *)
Fixpoint re_sub_runs (p : ascii → bool) (repl : ascii) (in_run : bool) (s : list ascii)
  : list ascii :=
  match s with
  | [] => []
  | c :: r =>
      if p c then
        if in_run then re_sub_runs p repl true r
        else repl :: re_sub_runs p repl true r
      else c :: re_sub_runs p repl false r
  end.

(** [s.lstrip(chars)], [s.rstrip(chars)] and [s.strip(chars)]. *)
Fixpoint lstrip (p : ascii → bool) (s : list ascii) : list ascii :=
  match s with
  | [] => []
  | c :: r => if p c then lstrip p r else s
  end.

Definition rstrip (p : ascii → bool) (s : list ascii) : list ascii :=
  rev (lstrip p (rev s)).

Definition strip (p : ascii → bool) (s : list ascii) : list ascii :=
  rstrip p (lstrip p s).

(** Lines 56-57 of the source: the two substitutions and the strip. *)
Definition clean_chars (topic : list ascii) : list ascii :=
  let clean_name := re_sub_class not_alnum "_" topic in
  strip is_underscore (re_sub_runs is_underscore "_" false clean_name).

Definition clean_name (topic : string) : string :=
  String.string_of_list_ascii (clean_chars (String.list_ascii_of_string topic)).

(** [os.path.join(a, b)] for two components, with the POSIX separator. *)
Definition starts_with_slash (s : string) : bool :=
  match s with
  | String c _ => if decide (c = "/"%char) then true else false
  | EmptyString => false
  end.

Fixpoint ends_with_slash (s : string) : bool :=
  match s with
  | EmptyString => false
  | String c EmptyString => if decide (c = "/"%char) then true else false
  | String _ r => ends_with_slash r
  end.

Definition os_path_join (a b : string) : string :=
  if starts_with_slash b then b
  else if decide (a = "") then b
  else if ends_with_slash a then a +:+ b
  else a +:+ "/" +:+ b.

(** [os.makedirs(directory, exist_ok=True)] and the [open]/[write] pair of
    the source, which truncates and writes the whole text.  The file
    system is taken to accept both: the [OSError] the real calls raise
    when it refuses (a regular file in the place of the directory, a
    name it does not allow) is outside the model, so what is proved of a
    call holds of the runs in which the file system accepts it. *)
Definition os_makedirs (directory : string) : Tool unit :=
  λ w, (mkWorld (state w) (log w) (files w) ({[ directory ]} ∪ dirs w), inr tt).

Definition write_text (path content : string) : Tool unit :=
  λ w, (mkWorld (state w) (log w) (<[ path := content ]> (files w)) (dirs w), inr tt).

(** [topic[-1]] *)
Definition list_last (l : list pyval) : Tool pyval :=
  match last l with
  | Some v => tool_ret v
  | None => tool_raise IndexError
  end.

(** The [re.sub] calls accept a [str] subject only. *)
Definition expect_str (v : pyval) : Tool string :=
  match v with
  | PStr s => tool_ret s
  | _ => tool_raise TypeError
  end.

(** [write_verdict_file(tool_context, content)] *)
Definition write_verdict_file (content : string) : Tool (gmap string string) :=
  topic <- state_get "PROMPT" (PStr "unknown_subject") ;;
  topic <- (match topic with
            | PList l => list_last l
            | _ => tool_ret topic
            end) ;;
  topic <- expect_str topic ;;
  let clean_name := clean_name topic in
  let filename := clean_name +:+ ".txt" in
  let directory := "court_records" in
  let target_path := os_path_join directory filename in
  os_makedirs directory ;;;
  write_text target_path content ;;;
  tool_ret (<[ "file_path" := target_path ]> status_success).

(** ** The agents and the workflow tree *)

(** The tools an agent may be given. *)
Inductive tool_name : Type :=
  | WikiTool
  | UpdateResearchData
  | SetStateValue
  | WriteVerdictFile
  | ExitLoop.

(** An agent of the workflow: an [Agent] step with its tools, or one of
    the three composers with its [sub_agents] in order.  The model name,
    the description and the instruction text of a step are prompts for
    the language model and are left out. *)
#[warnings="-register-all"]
Inductive agent : Type :=
  | Agent (name : string) (tools : list tool_name)
  | SequentialAgent (name : string) (sub_agents : list agent)
  | LoopAgent (name : string) (sub_agents : list agent) (max_iterations : nat)
  | ParallelAgent (name : string) (sub_agents : list agent).

Definition admirer_agent : agent :=
  Agent "admirer_agent" [WikiTool; UpdateResearchData].

Definition critic_agent : agent :=
  Agent "critic_agent" [WikiTool; UpdateResearchData].

Definition judge_agent : agent :=
  Agent "judge_agent" [UpdateResearchData; ExitLoop].

Definition verdict_writer : agent :=
  Agent "verdict_writer" [WriteVerdictFile].

Definition investigation_team : agent :=
  ParallelAgent "investigation_team" [admirer_agent; critic_agent].

Definition trial_loop : agent :=
  LoopAgent "trial_loop" [investigation_team; judge_agent] 3.

Definition inquiry_agent : agent :=
  Agent "inquiry_agent" [SetStateValue].

Definition root_agent : agent :=
  SequentialAgent "historical_court_system" [inquiry_agent; trial_loop; verdict_writer].

(** Accessors. *)
Definition agent_name (a : agent) : string :=
  match a with
  | Agent n _ | SequentialAgent n _ | LoopAgent n _ _ | ParallelAgent n _ => n
  end.

Definition agent_children (a : agent) : list agent :=
  match a with
  | Agent _ _ => []
  | SequentialAgent _ l | LoopAgent _ l _ | ParallelAgent _ l => l
  end.

Definition agent_tools (a : agent) : list tool_name :=
  match a with
  | Agent _ ts => ts
  | _ => []
  end.

Definition loop_bound (a : agent) : option nat :=
  match a with
  | LoopAgent _ _ m => Some m
  | _ => None
  end.

(** The shape of a tree of agents, names and tools forgotten. *)
#[warnings="-register-all"]
Inductive shape : Type :=
  | Step
  | Sequential (children : list shape)
  | Loop (children : list shape)
  | Parallel (children : list shape).

Fixpoint shape_of (a : agent) : shape :=
  match a with
  | Agent _ _ => Step
  | SequentialAgent _ l => Sequential (map shape_of l)
  | LoopAgent _ l _ => Loop (map shape_of l)
  | ParallelAgent _ l => Parallel (map shape_of l)
  end.

(** ** The bounded loop *)

(** Modelled from the spec: how the execution of a loop body ends,
    normally or with the termination signal of the [exit_loop] tool. *)
Inductive Outcome : Type :=
  | Completed
  | TerminationSignal.

(** Modelled from the spec: the states of the loop composer. *)
Inductive LoopState : Type :=
  | Running (iteration : nat)
  | Terminated
  | Exhausted.

Section ConditionalLoop.
Context {Store : Type}.

(** The body of the loop, run against the shared store, and the bound
    the loop was built with. *)
Variable body : Store → Store * Outcome.
Variable max_iterations : nat.

(** A loop in progress: its state, the store, and the indices of the
    iterations whose body has been started, oldest first. *)
Record LoopRun : Type := mkLoopRun {
  loop_state : LoopState;
  loop_store : Store;
  loop_started : list nat
}.

(** Modelled from the spec: the initial state is [Running 0]. *)
Definition loop_init (s : Store) : LoopRun := mkLoopRun (Running 0) s [].

(** Modelled from the spec: the state machine of the loop composer,
    which is the [LoopAgent] of the ADK package and not part of this
    repository.  The iteration counter is compared against the bound
    before a body is run, so that no more than [max_iterations] bodies
    are ever started: from [Running n] with [n >= max_iterations] the
    loop is [Exhausted] at once.  Otherwise the body is run; a
    termination signal leads to [Terminated]; otherwise
    [n + 1 >= max_iterations] leads to [Exhausted]; otherwise the
    iteration is incremented.  [Terminated] and [Exhausted] are
    terminal. *)
Definition loop_step (r : LoopRun) : LoopRun :=
  match loop_state r with
  | Running n =>
      if max_iterations <=? n then mkLoopRun Exhausted (loop_store r) (loop_started r)
      else
        let (s', o) := body (loop_store r) in
        let started := loop_started r ++ [n] in
        match o with
        | TerminationSignal => mkLoopRun Terminated s' started
        | Completed =>
            if max_iterations <=? n + 1
            then mkLoopRun Exhausted s' started
            else mkLoopRun (Running (n + 1)) s' started
        end
  | Terminated | Exhausted => r
  end.

(** [fuel] transitions of the state machine. *)
Fixpoint loop_run (fuel : nat) (r : LoopRun) : LoopRun :=
  match fuel with
  | O => r
  | S fuel' => loop_run fuel' (loop_step r)
  end.

Definition loop_finished (r : LoopRun) : bool :=
  match loop_state r with
  | Running _ => false
  | Terminated | Exhausted => true
  end.

(** The store after [n] executions of the body. *)
Fixpoint body_iter (n : nat) (s : Store) : Store :=
  match n with
  | O => s
  | S n' => body_iter n' (fst (body s))
  end.

Definition never_signals : Prop := ∀ s, snd (body s) = Completed.
End ConditionalLoop.

Arguments LoopRun : clear implicits.

(** ** The normalized reading of a field *)

(** The text a field stands for, in the words of the specification: the
    empty string when the field is absent or holds [None], the string
    itself, or the items of a list joined by line feeds.  A list with an
    item that is not a string has no such text. *)
Definition normalized (v : option pyval) : option string :=
  match v with
  | None | Some PNone => Some ""
  | Some (PStr s) => Some s
  | Some (PList l) => String.concat nl <$> str_items l
  end.

(** A sequence of append calls to one field, each made on the world the
    previous one left; the results are collected in call order. *)
Fixpoint append_calls (field : string) (ts : list string) (w : World)
  : World * list (pyexn + gmap string string) :=
  match ts with
  | [] => (w, [])
  | t :: ts' =>
      let (w1, r) := update_research_data field t w in
      let (w2, rs) := append_calls field ts' w1 in
      (w2, r :: rs)
  end.

(** ** The file name in the words of the specification *)

(** The maximal runs of alphanumeric characters of a label, in order.
    [cur] is the run being read. *)
Fixpoint alnum_words_go (cur : list ascii) (s : list ascii) : list (list ascii) :=
  match s with
  | [] => match cur with [] => [] | _ => [cur] end
  | c :: r =>
      if is_alnum c then alnum_words_go (cur ++ [c]) r
      else match cur with [] => [] | _ => [cur] end ++ alnum_words_go [] r
  end.

Definition alnum_words (s : list ascii) : list (list ascii) := alnum_words_go [] s.

(** Words joined by one underscore between neighbours. *)
Definition join_underscore (ws : list (list ascii)) : list ascii :=
  match ws with
  | [] => []
  | w :: ws' => w ++ concat (map (cons "_"%char) ws')
  end.

(** The name with every maximal run of other characters collapsed into
    one underscore and no underscore at either end. *)
Definition collapsed_name (topic : list ascii) : list ascii :=
  join_underscore (alnum_words topic).

(** Two underscores next to each other somewhere in [s]. *)
Definition adjacent_underscores (s : list ascii) : Prop :=
  ∃ l1 l2, s = l1 ++ "_"%char :: "_"%char :: l2.

(** The path of the verdict file for a label. *)
Definition verdict_path (topic : string) : string :=
  "court_records/" +:+ clean_name topic +:+ ".txt".

(** A word: a run of alphanumeric characters that is not empty. *)
Definition is_word (w : list ascii) : Prop := w ≠ [] ∧ forallb is_alnum w = true.

(** A character a file name may hold. *)
Definition name_char (c : ascii) : Prop := is_alnum c = true ∨ c = "_"%char.

(** No underscore of [l] follows another one; [prev] tells that the
    character before [l] is an underscore. *)
Fixpoint isolated (prev : bool) (l : list ascii) : bool :=
  match l with
  | [] => true
  | c :: r =>
      if is_underscore c then negb prev && isolated true r
      else isolated false r
  end.

(** How the label is found in the state: the default when [PROMPT] is
    absent, the string itself, or the last item of a list. *)
Inductive prompt_label : option pyval → string → Prop :=
  | label_default : prompt_label None "unknown_subject"
  | label_str (s : string) : prompt_label (Some (PStr s)) s
  | label_last (l : list pyval) (s : string) :
      last l = Some (PStr s) → prompt_label (Some (PList l)) s.

(** ** Sample worlds and loop bodies *)

(** A world whose field ["x"] holds the list [["a", "b"]], and one where
    it holds [None]. *)
Definition world_with_list : World :=
  with_state (insert "x" (PList [PStr "a"; PStr "b"])) empty_world.

Definition world_with_none : World :=
  with_state (insert "x" PNone) empty_world.

(** A world whose [PROMPT] holds the list [["Napoleon", "Julius Caesar"]]. *)
Definition world_with_prompts : World :=
  with_state (insert "PROMPT" (PList [PStr "Napoleon"; PStr "Julius Caesar"])) empty_world.

(** A loop body on a counter that never asks to stop. *)
Definition count_body (n : nat) : nat * Outcome := (S n, Completed).

(** ** Further notions used by the properties below *)

(** [isinstance(v, str)] *)
Definition is_str (v : pyval) : bool :=
  match v with PStr _ => true | _ => false end.

(** The characters of a string. *)
Definition chars (s : string) : list ascii := String.list_ascii_of_string s.

(** A world whose field ["x"] holds the list [["a", None]], one whose
    [PROMPT] is [None] and one whose [PROMPT] is the string ["Marie Curie"]. *)
Definition world_with_mixed_list : World :=
  with_state (insert "x" (PList [PStr "a"; PNone])) empty_world.

Definition world_with_none_prompt : World :=
  with_state (insert "PROMPT" PNone) empty_world.

Definition world_with_prompt : World :=
  with_state (insert "PROMPT" (PStr "Marie Curie")) empty_world.

(** The path a tool result reports, if any. *)
Definition file_path_of (r : pyexn + gmap string string) : option string :=
  match r with
  | inr d => d !! "file_path"
  | inl _ => None
  end.

(** A world whose [PROMPT] has no letter and no digit. *)
Definition world_with_blank_prompt : World :=
  with_state (insert "PROMPT" (PStr "?! ...")) empty_world.

(** * Properties of the state tools *)

Lemma append_assoc (a b c : string) : (a +:+ b) +:+ c = a +:+ b +:+ c.
Proof.
  induction a as [|x a IH]; [done|].
  change (String x ((a +:+ b) +:+ c) = String x (a +:+ b +:+ c)). by rewrite IH.
Qed.

Lemma prefix_append (a b : string) : String.prefix a (a +:+ b) = true.
Proof.
  induction a as [|x a IH].
  - by destruct b.
  - change (String.prefix (String x a) (String x (a +:+ b)) = true). cbn.
    destruct (ascii_dec x x); [apply IH|done].
Qed.

Lemma str_items_strs (l : list string) : str_items (PStr <$> l) = Some l.
Proof. induction l as [|s l IH]; [done|]. cbn. by rewrite IH. Qed.

(** What a call does when the field has a normalized text. *)
Lemma update_research_data_ok (w : World) (field new_info s : string) :
  normalized (state w !! field) = Some s →
  update_research_data field new_info w =
    (mkWorld (<[ field := PStr (s +:+ separator +:+ new_info) ]> (state w))
             (log w ++ ["Updated field: " +:+ field]) (files w) (dirs w),
     inr status_success).
Proof.
  intros Hn. unfold update_research_data, tool_bind, state_get.
  destruct (state w !! field) as [[| s' | l]|] eqn:Hf; cbn in Hn |- *.
  - by inversion Hn.
  - by inversion Hn.
  - unfold str_join. destruct (str_items l) as [ss|]; [|done].
    cbn in Hn |- *. by inversion Hn.
  - by inversion Hn.
Qed.

(** What a call does when the field holds a list that [join] rejects:
    [TypeError] is raised before anything is written. *)
Lemma update_research_data_raise (w : World) (field new_info : string) :
  normalized (state w !! field) = None →
  update_research_data field new_info w = (w, inl TypeError).
Proof.
  intros Hn. unfold update_research_data, tool_bind, state_get.
  destruct (state w !! field) as [[| s' | l]|] eqn:Hf; cbn in Hn |- *; try done.
  unfold str_join. by destruct (str_items l).
Qed.

Lemma append_calls_cons (field t : string) (ts : list string) (w : World) :
  append_calls field (t :: ts) w =
    let w1 := (update_research_data field t w).1 in
    ((append_calls field ts w1).1,
     (update_research_data field t w).2 :: (append_calls field ts w1).2).
Proof.
  change (append_calls field (t :: ts) w) with
    (let (w1, r) := update_research_data field t w in
     let (w2, rs) := append_calls field ts w1 in (w2, r :: rs)).
  destruct (update_research_data field t w) as [w1 r]. cbn.
  by destruct (append_calls field ts w1).
Qed.

Lemma append_calls_ok (field : string) (ts : list string) :
  ∀ (w : World) (s0 t : string),
    normalized (state w !! field) = Some s0 →
    Forall (λ r, r = inr status_success) (append_calls field (t :: ts) w).2 ∧
    state (append_calls field (t :: ts) w).1 !! field =
      Some (PStr (String.concat separator (s0 :: t :: ts))).
Proof.
  induction ts as [|t' ts IH]; intros w s0 t Hn;
    rewrite append_calls_cons, (update_research_data_ok _ _ _ _ Hn).
  - cbn. split; [by repeat constructor|]. by rewrite lookup_insert_eq.
  - cbn zeta. cbn [fst snd]. set (w1 := mkWorld _ _ _ _).
    destruct (IH w1 (s0 +:+ separator +:+ t) t') as [Hall Hval].
    { subst w1. cbn. by rewrite lookup_insert_eq. }
    split; [by constructor|].
    rewrite Hval. do 2 f_equal. cbn. by rewrite !append_assoc.
Qed.

(** C1, as stated, fails: one append of ["A"] to a field absent from the
    store does not leave ["A"], the join of the single content; the stored
    text starts with the separator. *)
Lemma single_append_is_not_bare_content :
  state (append_calls "x" ["A"] empty_world).1 !! "x"
    ≠ Some (PStr (String.concat separator ["A"])).
Proof. vm_compute. discriminate. Qed.

(** C1, amended: after the append calls [t1, ..., tn] to one field, all of
    which return success, the field holds the normalized prior text and
    [t1, ..., tn] joined in call order by the separator, the prior text
    being the empty string for an absent field or [None]; so one append of
    [t] to an absent field leaves the separator followed by [t]. *)
Theorem appends_join_prior_and_contents (w : World) (field s0 t : string) (ts : list string) :
  normalized (state w !! field) = Some s0 →
  Forall (λ r, r = inr status_success) (append_calls field (t :: ts) w).2 ∧
  state (append_calls field (t :: ts) w).1 !! field =
    Some (PStr (String.concat separator (s0 :: t :: ts))) ∧
  (state w !! field = None →
   state (append_calls field [t] w).1 !! field = Some (PStr (separator +:+ t))).
Proof.
  intros Hn. destruct (append_calls_ok field ts w s0 t Hn) as [Hall Hval].
  split; [done|]. split; [done|]. intros Habs.
  assert (normalized (state w !! field) = Some "") as H0 by (by rewrite Habs).
  by destruct (append_calls_ok field [] w "" t H0) as [_ ->].
Qed.

Lemma appends_join_prior_and_contents_witness :
  normalized (state world_with_list !! "x") = Some ("a" +:+ nl +:+ "b") ∧
  state (append_calls "x" ["A"; "B"] world_with_list).1 !! "x" =
    Some (PStr (String.concat separator ["a" +:+ nl +:+ "b"; "A"; "B"])).
Proof.
  split; [reflexivity|].
  apply (appends_join_prior_and_contents world_with_list "x" ("a" +:+ nl +:+ "b") "A" ["B"]).
  reflexivity.
Defined.

(** C3: reading a field with the default [""] never raises and changes
    nothing, and when the field is absent or holds [None] the append
    takes the empty string as the current text and returns
    [{"status": "success"}]. *)
Theorem append_reads_absent_as_empty (w : World) (field new_info : string) :
  (∃ v, state_get field (PStr "") w = (w, inr v)) ∧
  (state w !! field = None ∨ state w !! field = Some PNone →
   (state_get field (PStr "") w).2 ∈ [inr (PStr ""); inr PNone] ∧
   (update_research_data field new_info w).2 = inr status_success ∧
   state (update_research_data field new_info w).1 !! field =
     Some (PStr ("" +:+ separator +:+ new_info))).
Proof.
  split; [by eexists|]. intros Habs.
  assert (normalized (state w !! field) = Some "") as Hn by (by destruct Habs as [-> | ->]).
  rewrite (update_research_data_ok _ _ _ _ Hn). cbn [fst snd state].
  rewrite lookup_insert_eq. split; [|done].
  unfold state_get. cbn. destruct Habs as [-> | ->]; set_solver.
Qed.

Lemma append_reads_absent_as_empty_witness :
  (state world_with_none !! "x" = None ∨ state world_with_none !! "x" = Some PNone) ∧
  (update_research_data "x" "A" world_with_none).2 = inr status_success.
Proof.
  split; [right; reflexivity|].
  apply (append_reads_absent_as_empty world_with_none "x" "A").
  right; reflexivity.
Defined.

(** C4: when the field holds a list of strings [l], the append joins [l]
    with line feeds and stores that text, the separator and the new text
    as one string. *)
Theorem append_normalizes_list (w : World) (field new_info : string) (l : list string) :
  state w !! field = Some (PList (PStr <$> l)) →
  (update_research_data field new_info w).2 = inr status_success ∧
  state (update_research_data field new_info w).1 !! field =
    Some (PStr (String.concat nl l +:+ separator +:+ new_info)) ∧
  is_list (default PNone (state (update_research_data field new_info w).1 !! field)) = false.
Proof.
  intros Hl.
  assert (normalized (state w !! field) = Some (String.concat nl l)) as Hn.
  { rewrite Hl. cbn. by rewrite str_items_strs. }
  rewrite (update_research_data_ok _ _ _ _ Hn). cbn [fst snd state].
  by rewrite lookup_insert_eq.
Qed.

Lemma append_normalizes_list_witness :
  state world_with_list !! "x" = Some (PList (PStr <$> ["a"; "b"])) ∧
  state (update_research_data "x" "A" world_with_list).1 !! "x" =
    Some (PStr (String.concat nl ["a"; "b"] +:+ separator +:+ "A")).
Proof.
  split; [reflexivity|].
  apply (append_normalizes_list world_with_list "x" "A" ["a"; "b"]).
  reflexivity.
Defined.

(** C5: the normalized text of the prior value is a prefix of the text the
    append stores; a call that raises leaves the world as it was. *)
Theorem append_keeps_prior_as_prefix (w : World) (field new_info : string) :
  (∀ s, normalized (state w !! field) = Some s →
     ∃ s', state (update_research_data field new_info w).1 !! field = Some (PStr s') ∧
           String.prefix s s' = true) ∧
  (normalized (state w !! field) = None →
     (update_research_data field new_info w).1 = w).
Proof.
  split.
  - intros s Hn. rewrite (update_research_data_ok _ _ _ _ Hn). cbn [fst state].
    eexists. split; [apply lookup_insert_eq|]. apply prefix_append.
  - intros Hn. by rewrite (update_research_data_raise _ _ _ Hn).
Qed.

Lemma append_keeps_prior_as_prefix_witness :
  normalized (state world_with_list !! "x") = Some ("a" +:+ nl +:+ "b") ∧
  ∃ s', state (update_research_data "x" "A" world_with_list).1 !! "x" = Some (PStr s') ∧
        String.prefix ("a" +:+ nl +:+ "b") s' = true.
Proof.
  split; [reflexivity|].
  apply (proj1 (append_keeps_prior_as_prefix world_with_list "x" "A")).
  reflexivity.
Defined.

(** C6: after [set_state_value] the field holds exactly the given value,
    whatever the state was before. *)
Theorem set_state_value_overwrites (w w' : World) (field : string) (value : pyval) :
  (set_state_value field value w).2 = inr status_success ∧
  state (set_state_value field value w).1 !! field = Some value ∧
  state (set_state_value field value w).1 !! field =
    state (set_state_value field value w').1 !! field.
Proof.
  unfold set_state_value, tool_bind, state_set, tool_ret. cbn.
  by rewrite !lookup_insert_eq.
Qed.

(** C9: a call of either state tool changes no entry of the state other
    than the one named by [field]; files and directories stay as they
    were. *)
Theorem state_tools_frame (w : World) (field key new_info : string) (value : pyval) :
  key ≠ field →
  state (update_research_data field new_info w).1 !! key = state w !! key ∧
  state (set_state_value field value w).1 !! key = state w !! key ∧
  files (update_research_data field new_info w).1 = files w ∧
  files (set_state_value field value w).1 = files w ∧
  dirs (update_research_data field new_info w).1 = dirs w ∧
  dirs (set_state_value field value w).1 = dirs w.
Proof.
  intros Hne.
  destruct (normalized (state w !! field)) as [s|] eqn:Hn.
  - rewrite (update_research_data_ok _ _ _ _ Hn). cbn.
    by rewrite !lookup_insert_ne.
  - rewrite (update_research_data_raise _ _ _ Hn). cbn.
    by rewrite lookup_insert_ne.
Qed.

Lemma state_tools_frame_witness :
  "x" ≠ "y" ∧
  state (update_research_data "y" "A" world_with_list).1 !! "x" =
    state world_with_list !! "x".
Proof.
  split; [discriminate|].
  apply (state_tools_frame world_with_list "y" "x" "A" PNone).
  discriminate.
Defined.

(** * Properties of the file name *)

Lemma is_alnum_not_underscore (c : ascii) : is_alnum c = true → is_underscore c = false.
Proof.
  unfold is_underscore. destruct (decide (c = "_"%char)) as [->|]; [|done].
  by vm_compute.
Qed.

(** The two substitutions of the source amount to one pass that replaces
    each maximal run of characters that are not alphanumeric. *)
Lemma re_sub_fusion (b : bool) (s : list ascii) :
  re_sub_runs is_underscore "_" b (re_sub_class not_alnum "_" s) =
  re_sub_runs not_alnum "_" b s.
Proof.
  revert b. induction s as [|c r IH]; intros b; [done|]. cbn.
  destruct (not_alnum c) eqn:Hc; cbn.
  - by rewrite !IH.
  - apply negb_false_iff in Hc.
    by rewrite (is_alnum_not_underscore c Hc), IH.
Qed.

Lemma lstrip_app_last (p : ascii → bool) (m : list ascii) (c : ascii) :
  lstrip p (m ++ [c]) =
    if forallb p m then (if p c then [] else [c]) else lstrip p m ++ [c].
Proof.
  induction m as [|x m IH]; cbn; [done|].
  destruct (p x); cbn; [apply IH|done].
Qed.

Lemma forallb_rev (p : ascii → bool) (l : list ascii) : forallb p (rev l) = forallb p l.
Proof.
  induction l as [|x l IH]; [done|]. cbn.
  rewrite forallb_app, IH. cbn. destruct (p x), (forallb p l); done.
Qed.

Lemma rstrip_cons (p : ascii → bool) (c : ascii) (l : list ascii) :
  rstrip p (c :: l) =
    if forallb p l then (if p c then [] else [c]) else c :: rstrip p l.
Proof.
  unfold rstrip. cbn [rev]. rewrite lstrip_app_last, forallb_rev.
  destruct (forallb p l); [by destruct (p c)|].
  by rewrite rev_app_distr.
Qed.

Lemma rstrip_all (p : ascii → bool) (l : list ascii) :
  forallb p l = true → rstrip p l = [].
Proof.
  induction l as [|x l IH]; [done|]. cbn [forallb]. intros [Hx Hl]%andb_prop.
  by rewrite rstrip_cons, Hl, Hx.
Qed.

Lemma rstrip_app (p : ascii → bool) (x y : list ascii) :
  rstrip p (x ++ y) = if forallb p y then rstrip p x else x ++ rstrip p y.
Proof.
  induction x as [|c x IH]; cbn [app].
  - destruct (forallb p y) eqn:Hy; [|done]. by rewrite rstrip_all.
  - rewrite !rstrip_cons, forallb_app, IH.
    destruct (forallb p y); [by rewrite andb_true_r|].
    by rewrite andb_false_r.
Qed.

Lemma rstrip_nonempty (p : ascii → bool) (l : list ascii) :
  forallb p l = false → rstrip p l ≠ [].
Proof.
  destruct l as [|x l]; [done|]. cbn [forallb]. rewrite rstrip_cons.
  destruct (forallb p l); [|done]. rewrite andb_true_r. by intros ->.
Qed.

Lemma last_rstrip (p : ascii → bool) (l : list ascii) (c : ascii) :
  last (rstrip p l) = Some c → p c = false.
Proof.
  induction l as [|x l IH]; [done|]. rewrite rstrip_cons.
  destruct (forallb p l) eqn:Hl.
  - destruct (p x) eqn:Hx; [done|]. cbn. by intros [= <-].
  - rewrite last_cons. destruct (last (rstrip p l)) as [y|] eqn:Hy.
    + intros [= <-]. by apply IH.
    + apply last_None in Hy. by apply rstrip_nonempty in Hl.
Qed.

Lemma head_rstrip (p : ascii → bool) (l : list ascii) (c : ascii) :
  head (rstrip p l) = Some c → head l = Some c.
Proof.
  destruct l as [|x l]; [done|]. rewrite rstrip_cons.
  destruct (forallb p l); [by destruct (p x)|done].
Qed.

Lemma head_lstrip (p : ascii → bool) (l : list ascii) (c : ascii) :
  head (lstrip p l) = Some c → p c = false.
Proof.
  induction l as [|x l IH]; [done|]. cbn.
  destruct (p x) eqn:Hx; [done|]. cbn. by intros [= <-].
Qed.

Lemma rstrip_word (w : list ascii) :
  forallb is_alnum w = true → rstrip is_underscore w = w.
Proof.
  induction w as [|c w IH]; [done|]. cbn [forallb]. intros [Hc Hw]%andb_prop.
  rewrite rstrip_cons, (is_alnum_not_underscore c Hc), (IH Hw).
  destruct w as [|c' w]; [done|]. cbn [forallb] in Hw |- *.
  apply andb_prop in Hw as [Hc' _].
  by rewrite (is_alnum_not_underscore c' Hc').
Qed.

Lemma alnum_words_go_nonempty (s cur : list ascii) :
  cur ≠ [] → alnum_words_go cur s ≠ [].
Proof.
  revert cur. induction s as [|c r IH]; intros cur Hcur; cbn.
  - by destruct cur.
  - destruct (is_alnum c).
    + apply IH. by destruct cur.
    + by destruct cur.
Qed.

Lemma alnum_words_go_words (s cur : list ascii) :
  forallb is_alnum cur = true → Forall is_word (alnum_words_go cur s).
Proof.
  revert cur. induction s as [|c r IH]; intros cur Hcur; cbn.
  - destruct cur; [constructor|]. by repeat constructor.
  - destruct (is_alnum c) eqn:Hc.
    + apply IH. rewrite forallb_app, Hcur. cbn. by rewrite Hc.
    + apply Forall_app. split; [|by apply IH].
      destruct cur; [constructor|]. by repeat constructor.
Qed.

Lemma join_underscore_cons (w : list ascii) (ws : list (list ascii)) :
  concat (map (cons "_"%char) (w :: ws)) = "_"%char :: join_underscore (w :: ws).
Proof. done. Qed.

(** After a word has been read ([cur], or the output up to an underscore
    that has just been written), the rest of the scan followed by the
    right strip gives the remaining words. *)
Lemma scan_after_word (s : list ascii) :
  (∀ cur, cur ≠ [] → forallb is_alnum cur = true →
     rstrip is_underscore (cur ++ re_sub_runs not_alnum "_" false s) =
     join_underscore (alnum_words_go cur s)) ∧
  (if forallb is_underscore (re_sub_runs not_alnum "_" true s)
   then alnum_words_go [] s = []
   else rstrip is_underscore ("_"%char :: re_sub_runs not_alnum "_" true s) =
        concat (map (cons "_"%char) (alnum_words_go [] s))).
Proof.
  induction s as [|c r [IHa IHb]].
  - split; [|done]. intros cur Hcur Hw. cbn. rewrite !app_nil_r.
    rewrite (rstrip_word _ Hw). destruct cur; [done|]. cbn. by rewrite app_nil_r.
  - cbn [re_sub_runs alnum_words_go app].
    pose proof (eq_refl : not_alnum c = negb (is_alnum c)) as Hn.
    destruct (is_alnum c) eqn:Hc; cbn [negb] in Hn; rewrite !Hn.
    + split.
      * intros cur Hcur Hw. rewrite (cons_middle c cur), app_assoc.
        apply IHa; [by destruct cur|].
        rewrite forallb_app, Hw. cbn. by rewrite Hc.
      * cbn [forallb]. rewrite (is_alnum_not_underscore c Hc). cbn [andb].
        rewrite rstrip_cons. cbn [forallb].
        rewrite (is_alnum_not_underscore c Hc). cbn [andb].
        change (c :: re_sub_runs not_alnum "_" false r)
          with ([c] ++ re_sub_runs not_alnum "_" false r).
        rewrite IHa by (by cbn; rewrite ?Hc).
        cbn [app].
        pose proof (alnum_words_go_nonempty r [c]) as Hne.
        destruct (alnum_words_go [c] r) as [|w ws]; [by exfalso; apply Hne|].
        by rewrite join_underscore_cons.
    + split.
      * intros cur Hcur Hw. rewrite rstrip_app. cbn [forallb].
        replace (is_underscore "_") with true by (by vm_compute). cbn [andb].
        destruct (forallb is_underscore (re_sub_runs not_alnum "_" true r)).
        -- rewrite IHb, (rstrip_word _ Hw). destruct cur; [done|].
           cbn. by rewrite app_nil_r.
        -- rewrite IHb. by destruct cur.
      * destruct (forallb is_underscore (re_sub_runs not_alnum "_" true r));
          by rewrite ?IHb.
Qed.

(** Refinement: the name the source computes is the alphanumeric words of
    the label joined by single underscores. *)
Lemma strip_scan (s : list ascii) (b : bool) :
  strip is_underscore (re_sub_runs not_alnum "_" b s) = collapsed_name s.
Proof.
  unfold collapsed_name, alnum_words. revert b.
  induction s as [|c r IH]; intros b; [done|].
  cbn [re_sub_runs alnum_words_go app].
  pose proof (eq_refl : not_alnum c = negb (is_alnum c)) as Hn.
  destruct (is_alnum c) eqn:Hc; cbn [negb] in Hn; rewrite !Hn.
  - unfold strip. cbn [lstrip]. rewrite (is_alnum_not_underscore c Hc).
    change (c :: re_sub_runs not_alnum "_" false r)
      with ([c] ++ re_sub_runs not_alnum "_" false r).
    apply (proj1 (scan_after_word r)); [done|]. cbn. by rewrite Hc.
  - destruct b; [apply IH|].
    unfold strip. cbn [lstrip].
    replace (is_underscore "_") with true by (by vm_compute). apply IH.
Qed.

Lemma clean_chars_collapsed (topic : list ascii) :
  clean_chars topic = collapsed_name topic.
Proof. unfold clean_chars. cbn zeta. by rewrite re_sub_fusion, strip_scan. Qed.

Lemma isolated_adjacent (l1 l2 : list ascii) (b : bool) :
  isolated b (l1 ++ "_"%char :: "_"%char :: l2) = false.
Proof.
  revert b. induction l1 as [|c l1 IH]; intros b; cbn [app isolated].
  - replace (is_underscore "_") with true by (by vm_compute).
    cbn. apply andb_false_r.
  - destruct (is_underscore c); rewrite IH; [apply andb_false_r|done].
Qed.

Lemma isolated_word_app (w x : list ascii) (b : bool) :
  is_word w → isolated b (w ++ x) = isolated false x.
Proof.
  intros [Hne Hw]. revert b. induction w as [|c w IH]; intros b; [done|].
  cbn [forallb] in Hw. apply andb_prop in Hw as [Hc Hw].
  cbn [app isolated]. rewrite (is_alnum_not_underscore c Hc).
  destruct w as [|c' w]; [done|]. by apply IH.
Qed.

Lemma isolated_separated (ws : list (list ascii)) :
  Forall is_word ws → isolated false (concat (map (cons "_"%char) ws)) = true.
Proof.
  induction 1 as [|w ws Hw _ IH]; [done|]. cbn [map concat app isolated].
  replace (is_underscore "_") with true by (by vm_compute). cbn [negb andb].
  by rewrite isolated_word_app.
Qed.

Lemma join_underscore_isolated (ws : list (list ascii)) :
  Forall is_word ws → ¬ adjacent_underscores (join_underscore ws).
Proof.
  intros Hws (l1 & l2 & Heq).
  assert (isolated false (join_underscore ws) = true) as Hiso.
  { destruct Hws as [|w ws Hw Hws]; [done|]. cbn [join_underscore].
    rewrite isolated_word_app by done. by apply isolated_separated. }
  by rewrite Heq, isolated_adjacent in Hiso.
Qed.

Lemma word_name_chars (w : list ascii) : is_word w → Forall name_char w.
Proof.
  intros [_ Hw]. induction w as [|c w IH]; [constructor|].
  cbn [forallb] in Hw. apply andb_prop in Hw as [Hc Hw].
  constructor; [by left|by apply IH].
Qed.

Lemma join_underscore_name_chars (ws : list (list ascii)) :
  Forall is_word ws → Forall name_char (join_underscore ws).
Proof.
  intros Hws. destruct Hws as [|w ws Hw Hws]; [constructor|].
  cbn [join_underscore]. apply Forall_app. split; [by apply word_name_chars|].
  induction Hws as [|w' ws' Hw' _ IH]; [constructor|]. cbn [map concat].
  apply Forall_app. split; [|done].
  constructor; [by right|by apply word_name_chars].
Qed.

Lemma clean_chars_ends (topic : list ascii) :
  head (clean_chars topic) ≠ Some "_"%char ∧ last (clean_chars topic) ≠ Some "_"%char.
Proof.
  unfold clean_chars, strip. cbn zeta. split; intros H.
  - apply head_rstrip, head_lstrip in H. by vm_compute in H.
  - apply last_rstrip in H. by vm_compute in H.
Qed.

Lemma clean_name_chars (topic : string) :
  String.list_ascii_of_string (clean_name topic) =
  clean_chars (String.list_ascii_of_string topic).
Proof. unfold clean_name. apply String.list_ascii_of_string_of_list_ascii. Qed.

(** The file name never starts with a slash, so [os.path.join] puts it
    under the directory. *)
Lemma verdict_path_join (topic : string) :
  os_path_join "court_records" (clean_name topic +:+ ".txt") = verdict_path topic.
Proof.
  assert (starts_with_slash (clean_name topic +:+ ".txt") = false) as Hs.
  { pose proof (clean_chars_collapsed (String.list_ascii_of_string topic)) as Hc.
    pose proof (join_underscore_name_chars _
      (alnum_words_go_words (String.list_ascii_of_string topic) [] eq_refl)) as Hn.
    fold (alnum_words (String.list_ascii_of_string topic)) in Hn.
    fold (collapsed_name (String.list_ascii_of_string topic)) in Hn.
    rewrite <- Hc in Hn. unfold clean_name.
    destruct (clean_chars (String.list_ascii_of_string topic)) as [|c r]; [done|].
    apply Forall_cons in Hn as [Hname _].
    change (starts_with_slash
              (String c (String.string_of_list_ascii r +:+ ".txt")) = false).
    cbn [starts_with_slash].
    destruct (decide (c = "/"%char)) as [->|]; [|done].
    by destruct Hname as [Hname|Hname]; vm_compute in Hname. }
  unfold os_path_join. rewrite Hs. done.
Qed.

Lemma write_verdict_file_ok (w : World) (content topic : string) :
  prompt_label (state w !! "PROMPT") topic →
  write_verdict_file content w =
    (mkWorld (state w) (log w) (<[ verdict_path topic := content ]> (files w))
             ({[ "court_records" ]} ∪ dirs w),
     inr (<[ "file_path" := verdict_path topic ]> status_success)).
Proof.
  intros Hl. unfold write_verdict_file, tool_bind, state_get.
  inversion Hl as [Heq | s Heq | l s Hlast Heq]; subst;
    cbn -[os_path_join clean_name verdict_path].
  - by rewrite verdict_path_join.
  - by rewrite verdict_path_join.
  - unfold list_last. rewrite Hlast. cbn -[os_path_join clean_name verdict_path].
    by rewrite verdict_path_join.
Qed.

(** C7: the name of the verdict file is the label with every maximal run
    of characters that are not alphanumeric collapsed into one underscore
    and the underscores at both ends removed: it holds alphanumeric
    characters and underscores only, no two underscores are adjacent, none
    is first or last, and the file is [court_records/<name>.txt]. *)
Theorem verdict_file_name_collapsed (topic content : string) (w : World) :
  String.list_ascii_of_string (clean_name topic) =
    collapsed_name (String.list_ascii_of_string topic) ∧
  Forall name_char (String.list_ascii_of_string (clean_name topic)) ∧
  ¬ adjacent_underscores (String.list_ascii_of_string (clean_name topic)) ∧
  head (String.list_ascii_of_string (clean_name topic)) ≠ Some "_"%char ∧
  last (String.list_ascii_of_string (clean_name topic)) ≠ Some "_"%char ∧
  (write_verdict_file content (with_state (insert "PROMPT" (PStr topic)) w)).2 =
    inr (<[ "file_path" := "court_records/" +:+ clean_name topic +:+ ".txt" ]>
           status_success).
Proof.
  rewrite clean_name_chars.
  pose proof (alnum_words_go_words (String.list_ascii_of_string topic) [] eq_refl) as Hws.
  pose proof (clean_chars_ends (String.list_ascii_of_string topic)) as [Hhd Hlast].
  split; [apply clean_chars_collapsed|].
  rewrite clean_chars_collapsed in Hhd, Hlast |- *.
  split; [by apply join_underscore_name_chars|].
  split; [by apply join_underscore_isolated|].
  split; [done|]. split; [done|].
  rewrite (write_verdict_file_ok _ content topic); [done|].
  cbn. rewrite lookup_insert_eq. constructor.
Qed.

(** C10: when [PROMPT] is absent the label is ["unknown_subject"] and the
    file is [court_records/unknown_subject.txt]; when [PROMPT] holds a
    list the label is its last item. *)
Theorem verdict_label_resolution (w : World) (content : string) :
  (state w !! "PROMPT" = None →
     (write_verdict_file content w).2 =
       inr (<[ "file_path" := "court_records/unknown_subject.txt" ]> status_success) ∧
     files (write_verdict_file content w).1 !! "court_records/unknown_subject.txt" =
       Some content) ∧
  (∀ l s, state w !! "PROMPT" = Some (PList l) → last l = Some (PStr s) →
     (write_verdict_file content w).2 =
       inr (<[ "file_path" := "court_records/" +:+ clean_name s +:+ ".txt" ]>
              status_success) ∧
     files (write_verdict_file content w).1
       !! ("court_records/" +:+ clean_name s +:+ ".txt") = Some content).
Proof.
  split.
  - intros Habs. rewrite (write_verdict_file_ok _ content "unknown_subject")
      by (rewrite Habs; constructor).
    cbn [fst snd files]. split; [done|]. apply lookup_insert_eq.
  - intros l s Hl Hlast. rewrite (write_verdict_file_ok _ content s)
      by (rewrite Hl; by constructor).
    cbn [fst snd files]. split; [done|]. apply lookup_insert_eq.
Qed.

Lemma verdict_label_resolution_witness :
  (state empty_world !! "PROMPT" = None ∧
   (write_verdict_file "v" empty_world).2 =
     inr (<[ "file_path" := "court_records/unknown_subject.txt" ]> status_success)) ∧
  (state world_with_prompts !! "PROMPT" =
     Some (PList [PStr "Napoleon"; PStr "Julius Caesar"]) ∧
   last [PStr "Napoleon"; PStr "Julius Caesar"] = Some (PStr "Julius Caesar") ∧
   (write_verdict_file "v" world_with_prompts).2 =
     inr (<[ "file_path" := "court_records/Julius_Caesar.txt" ]> status_success)).
Proof.
  split.
  - split; [reflexivity|].
    apply (proj1 (verdict_label_resolution empty_world "v")). reflexivity.
  - split; [reflexivity|]. split; [reflexivity|].
    apply (proj2 (verdict_label_resolution world_with_prompts "v")
             [PStr "Napoleon"; PStr "Julius Caesar"] "Julius Caesar");
      reflexivity.
Defined.

(** C8: the root is a sequential composer over the inquiry step, the
    trial loop and the verdict writer, in this order; the loop runs the
    parallel team of the admirer and the critic and then the judge, who
    alone can leave the loop; the inquiry step has the overwrite tool and
    the verdict writer the file tool. *)
Theorem workflow_tree_shape :
  shape_of root_agent = Sequential [Step; Loop [Parallel [Step; Step]; Step]; Step] ∧
  agent_children root_agent = [inquiry_agent; trial_loop; verdict_writer] ∧
  agent_name <$> agent_children root_agent =
    ["inquiry_agent"; "trial_loop"; "verdict_writer"] ∧
  agent_tools inquiry_agent = [SetStateValue] ∧
  agent_children trial_loop = [investigation_team; judge_agent] ∧
  agent_name <$> agent_children trial_loop = ["investigation_team"; "judge_agent"] ∧
  agent_children investigation_team = [admirer_agent; critic_agent] ∧
  agent_name <$> agent_children investigation_team = ["admirer_agent"; "critic_agent"] ∧
  agent_tools admirer_agent = [WikiTool; UpdateResearchData] ∧
  agent_tools critic_agent = [WikiTool; UpdateResearchData] ∧
  agent_tools judge_agent = [UpdateResearchData; ExitLoop] ∧
  agent_tools verdict_writer = [WriteVerdictFile].
Proof. repeat split. Qed.

(** * The bounded loop *)

Section LoopProperties.
Context {Store : Type}.
Variable body : Store → Store * Outcome.
Variable max_iterations : nat.
Hypothesis body_completes : never_signals body.

Lemma loop_run_finished (fuel : nat) (r : LoopRun Store) :
  loop_finished r = true → loop_run body max_iterations fuel r = r.
Proof.
  intros Hfin. induction fuel as [|fuel IH]; [done|]. cbn [loop_run].
  replace (loop_step body max_iterations r) with r; [done|].
  unfold loop_step. unfold loop_finished in Hfin.
  by destruct (loop_state r).
Qed.

Lemma loop_run_add (a b : nat) (r : LoopRun Store) :
  loop_run body max_iterations (a + b) r =
  loop_run body max_iterations b (loop_run body max_iterations a r).
Proof. revert r. induction a as [|a IH]; intros r; [done|]. cbn. apply IH. Qed.

Lemma loop_step_running (n : nat) (s : Store) (started : list nat) :
  n < max_iterations →
  loop_step body max_iterations (mkLoopRun (Running n) s started) =
    mkLoopRun (if max_iterations <=? n + 1 then Exhausted else Running (n + 1))
              (body s).1 (started ++ [n]).
Proof.
  intros Hlt. unfold loop_step. cbn.
  destruct (Nat.leb_spec max_iterations n) as [Hle|_]; [lia|].
  pose proof (body_completes s) as Hc.
  destruct (body s) as [s' o]. cbn in Hc |- *. subst o.
  by destruct (max_iterations <=? n + 1).
Qed.

(** While iterations remain, [k] transitions run [k] bodies. *)
Lemma loop_run_below (k n : nat) (s : Store) (started : list nat) :
  n + k < max_iterations →
  loop_run body max_iterations k (mkLoopRun (Running n) s started) =
    mkLoopRun (Running (n + k)) (body_iter body k s) (started ++ seq n k).
Proof.
  revert n s started. induction k as [|k IH]; intros n s started Hlt.
  - cbn. by rewrite Nat.add_0_r, app_nil_r.
  - cbn [loop_run]. rewrite loop_step_running by lia.
    destruct (Nat.leb_spec max_iterations (n + 1)) as [Hle|_]; [lia|].
    rewrite IH by lia. cbn [body_iter seq].
    rewrite <- app_assoc. cbn [app]. f_equal; [f_equal; lia|].
    by rewrite Nat.add_1_r.
Qed.

Lemma body_iter_succ (m : nat) (s : Store) :
  body_iter body (S m) s = (body (body_iter body m s)).1.
Proof. revert s. induction m as [|m IH]; intros s; [done|]. cbn. apply IH. Qed.

(** With a bound of at least one, [max_iterations] transitions run as
    many bodies and end in [Exhausted]. *)
Lemma loop_run_exhausts (s : Store) :
  1 ≤ max_iterations →
  loop_run body max_iterations max_iterations (loop_init s) =
    mkLoopRun Exhausted (body_iter body max_iterations s) (seq 0 max_iterations).
Proof.
  intros Hpos. destruct max_iterations as [|m] eqn:Hm; [lia|].
  replace (S m) with (m + 1) at 2 by lia. rewrite <- Hm.
  rewrite loop_run_add. unfold loop_init.
  rewrite loop_run_below by lia. cbn [loop_run].
  rewrite loop_step_running by lia.
  destruct (Nat.leb_spec max_iterations (0 + m + 1)) as [_|Hlt]; [|lia].
  cbn [app plus]. rewrite Hm, body_iter_succ. f_equal.
  by rewrite seq_S.
Qed.

(** With the bound zero the first transition ends the loop and no body
    is run. *)
Lemma loop_step_zero_bound (s : Store) :
  max_iterations = 0 →
  loop_step body max_iterations (loop_init s) = mkLoopRun Exhausted s [].
Proof. intros ->. done. Qed.
End LoopProperties.

(** C2: a loop whose body never raises the termination signal runs its
    body exactly [max_iterations] times, the iterations [0] to
    [max_iterations - 1] and none beyond the bound, is not finished
    before, and then rests in [Exhausted], a terminal state and not an
    error; the bound of [trial_loop] is 3. *)
Theorem loop_exhausts_at_bound {Store : Type} (body : Store → Store * Outcome)
    (max_iterations fuel : nat) (s : Store) :
  never_signals body →
  max_iterations ≤ fuel →
  0 < fuel →
  loop_run body max_iterations fuel (loop_init s) =
    mkLoopRun Exhausted (body_iter body max_iterations s) (seq 0 max_iterations) ∧
  length (loop_started (loop_run body max_iterations fuel (loop_init s))) = max_iterations ∧
  Forall (λ i, i < max_iterations)
    (loop_started (loop_run body max_iterations fuel (loop_init s))) ∧
  (∀ k, k < max_iterations →
     loop_finished (loop_run body max_iterations k (loop_init s)) = false) ∧
  loop_bound trial_loop = Some 3.
Proof.
  intros Hbody Hfuel Hpos.
  assert (loop_run body max_iterations fuel (loop_init s) =
          mkLoopRun Exhausted (body_iter body max_iterations s) (seq 0 max_iterations)) as Hrun.
  { destruct (decide (max_iterations = 0)) as [Hz|Hnz].
    - destruct fuel as [|fuel]; [lia|]. cbn [loop_run].
      rewrite loop_step_zero_bound by done. rewrite Hz.
      by apply loop_run_finished.
    - replace fuel with (max_iterations + (fuel - max_iterations)) by lia.
      rewrite loop_run_add, loop_run_exhausts by (done || lia).
      by apply loop_run_finished. }
  rewrite Hrun. cbn [loop_started]. split; [done|].
  split; [apply length_seq|]. split.
  - apply Forall_forall. intros i Hi%list_elem_of_In%in_seq. lia.
  - split; [|done]. intros k Hk. unfold loop_init.
    by rewrite loop_run_below by (done || lia).
Qed.

Lemma loop_exhausts_at_bound_witness :
  never_signals count_body ∧ 3 ≤ 5 ∧ 0 < 5 ∧
  loop_run count_body 3 5 (loop_init 0) = mkLoopRun Exhausted 3 [0; 1; 2].
Proof.
  split; [intros n; reflexivity|]. split; [lia|]. split; [lia|].
  apply (loop_exhausts_at_bound count_body 3 5 0); [intros n; reflexivity | lia | lia].
Defined.

(** * Further properties of the state tools *)

Lemma str_items_None (l : list pyval) :
  str_items l = None ↔ forallb is_str l = false.
Proof.
  induction l as [|v l IH]; [done|]. cbn.
  destruct v as [|s|items]; cbn; [done| |done].
  destruct (str_items l); [|by apply IH].
  split; [done|]. intros H. by apply IH in H.
Qed.

Lemma normalized_None (v : option pyval) :
  normalized v = None ↔ ∃ l, v = Some (PList l) ∧ forallb is_str l = false.
Proof.
  split.
  - destruct v as [[|s|l]|]; cbn; try done.
    destruct (str_items l) eqn:Hl; [done|]. intros _.
    exists l. split; [done|]. by apply str_items_None.
  - intros (l & -> & Hl). cbn. apply str_items_None in Hl. by rewrite Hl.
Qed.

Lemma string_length_append (a b : string) :
  String.length (a +:+ b) = String.length a + String.length b.
Proof.
  induction a as [|x a IH]; [done|].
  change (S (String.length (a +:+ b)) = S (String.length a + String.length b)).
  by rewrite IH.
Qed.

(** X1: an append raises exactly when the field holds a list with an
    item that is not a string; the exception is [TypeError], nothing is
    written or logged, and every other call returns success. *)
Theorem append_raises_exactly_on_mixed_list (w : World) (field new_info : string) :
  ((update_research_data field new_info w).2 = inl TypeError ↔
     ∃ l, state w !! field = Some (PList l) ∧ forallb is_str l = false) ∧
  ((update_research_data field new_info w).2 = inl TypeError →
     (update_research_data field new_info w).1 = w) ∧
  ((update_research_data field new_info w).2 = inl TypeError ∨
   (update_research_data field new_info w).2 = inr status_success).
Proof.
  destruct (normalized (state w !! field)) as [s|] eqn:Hn.
  - rewrite (update_research_data_ok _ _ _ _ Hn). cbn [fst snd].
    split; [|split; [done|by right]]. split; [done|].
    intros Hl. apply normalized_None in Hl. congruence.
  - rewrite (update_research_data_raise _ _ _ Hn). cbn [fst snd].
    split; [|split; [done|by left]]. split; [|done].
    intros _. by apply normalized_None.
Qed.

Lemma append_raises_exactly_on_mixed_list_witness :
  (∃ l, state world_with_mixed_list !! "x" = Some (PList l) ∧ forallb is_str l = false) ∧
  (update_research_data "x" "A" world_with_mixed_list).2 = inl TypeError.
Proof.
  assert (∃ l, state world_with_mixed_list !! "x" = Some (PList l) ∧
               forallb is_str l = false) as H
    by (exists [PStr "a"; PNone]; split; reflexivity).
  split; [exact H|].
  apply (proj2 (proj1 (append_raises_exactly_on_mixed_list world_with_mixed_list "x" "A"))).
  exact H.
Defined.

Lemma append_calls_log (field : string) (ts : list string) :
  ∀ (w : World) (s0 : string),
    normalized (state w !! field) = Some s0 →
    log (append_calls field ts w).1 =
      log w ++ replicate (length ts) ("Updated field: " +:+ field).
Proof.
  induction ts as [|t ts IH]; intros w s0 Hn.
  - cbn. by rewrite app_nil_r.
  - rewrite append_calls_cons, (update_research_data_ok _ _ _ _ Hn).
    cbn zeta. cbn [fst snd]. set (w1 := mkWorld _ _ _ _).
    rewrite (IH w1 (s0 +:+ separator +:+ t)).
    + subst w1. cbn [log length replicate]. by rewrite <- app_assoc.
    + subst w1. cbn. by rewrite lookup_insert_eq.
Qed.

(** X2: every successful append writes one log record naming the field,
    so [n] appends to a field with a normalized text leave [n] such
    records after the earlier ones; the overwrite tool logs nothing. *)
Theorem appends_log_one_record_each (w : World) (field s0 : string) (ts : list string)
    (value : pyval) :
  normalized (state w !! field) = Some s0 →
  log (append_calls field ts w).1 =
    log w ++ replicate (length ts) ("Updated field: " +:+ field) ∧
  log (set_state_value field value w).1 = log w.
Proof. intros Hn. split; [by apply (append_calls_log field ts w s0)|done]. Qed.

Lemma appends_log_one_record_each_witness :
  normalized (state world_with_list !! "x") = Some ("a" +:+ nl +:+ "b") ∧
  log (append_calls "x" ["A"; "B"] world_with_list).1 =
    ["Updated field: x"; "Updated field: x"].
Proof.
  split; [reflexivity|].
  apply (appends_log_one_record_each world_with_list "x" ("a" +:+ nl +:+ "b") ["A"; "B"] PNone).
  reflexivity.
Defined.

Lemma append_calls_raise (field : string) (ts : list string) (w : World) :
  normalized (state w !! field) = None →
  append_calls field ts w = (w, replicate (length ts) (inl TypeError)).
Proof.
  intros Hn. induction ts as [|t ts IH]; [done|].
  rewrite append_calls_cons, (update_research_data_raise _ _ _ Hn).
  cbn zeta. cbn [fst snd]. by rewrite IH.
Qed.

(** X3: a field that holds a list with an item that is not a string stays
    as it is under any number of appends: every call raises [TypeError]
    and the world does not change. *)
Theorem mixed_list_blocks_every_append (w : World) (field : string) (l : list pyval)
    (ts : list string) :
  state w !! field = Some (PList l) →
  forallb is_str l = false →
  append_calls field ts w = (w, replicate (length ts) (inl TypeError)).
Proof.
  intros Hl Hmixed. apply append_calls_raise, normalized_None. by exists l.
Qed.

Lemma mixed_list_blocks_every_append_witness :
  state world_with_mixed_list !! "x" = Some (PList [PStr "a"; PNone]) ∧
  forallb is_str [PStr "a"; PNone] = false ∧
  append_calls "x" ["A"; "B"] world_with_mixed_list =
    (world_with_mixed_list, [inl TypeError; inl TypeError]).
Proof.
  split; [reflexivity|]. split; [reflexivity|].
  apply (mixed_list_blocks_every_append world_with_mixed_list "x" [PStr "a"; PNone] ["A"; "B"]);
    reflexivity.
Defined.

(** X4: an overwrite with a string followed by an append always succeeds,
    whatever the field held before (a list that makes appends raise
    included), and leaves the string, the separator and the new text. *)
Theorem overwrite_then_append (w : World) (field v new_info : string) :
  (update_research_data field new_info (set_state_value field (PStr v) w).1).2 =
    inr status_success ∧
  state (update_research_data field new_info (set_state_value field (PStr v) w).1).1
    !! field = Some (PStr (v +:+ separator +:+ new_info)).
Proof.
  assert (normalized (state (set_state_value field (PStr v) w).1 !! field) = Some v) as Hn.
  { cbn. by rewrite lookup_insert_eq. }
  rewrite (update_research_data_ok _ _ _ _ Hn). cbn [fst snd state].
  by rewrite lookup_insert_eq.
Qed.

Lemma update_research_data_other (w : World) (field key new_info : string) :
  key ≠ field →
  state (update_research_data field new_info w).1 !! key = state w !! key.
Proof.
  intros Hne. destruct (normalized (state w !! field)) as [s|] eqn:Hn.
  - rewrite (update_research_data_ok _ _ _ _ Hn). cbn. by rewrite lookup_insert_ne.
  - by rewrite (update_research_data_raise _ _ _ Hn).
Qed.

(** The state an append leaves and its result depend on the state only. *)
Lemma update_research_data_state (w : World) (field new_info : string) :
  state (update_research_data field new_info w).1 =
    match normalized (state w !! field) with
    | Some s => <[ field := PStr (s +:+ separator +:+ new_info) ]> (state w)
    | None => state w
    end ∧
  (update_research_data field new_info w).2 =
    match normalized (state w !! field) with
    | Some _ => inr status_success
    | None => inl TypeError
    end ∧
  files (update_research_data field new_info w).1 = files w ∧
  dirs (update_research_data field new_info w).1 = dirs w.
Proof.
  destruct (normalized (state w !! field)) as [s|] eqn:Hn.
  - by rewrite (update_research_data_ok _ _ _ _ Hn).
  - by rewrite (update_research_data_raise _ _ _ Hn).
Qed.

(** X5: appends to two different fields commute, as the two research
    agents of the parallel team make them: either order leaves the same
    state, files and directories, and each call has the result it has
    when made alone. *)
Theorem appends_to_distinct_fields_commute (w : World) (f1 f2 t1 t2 : string) :
  f1 ≠ f2 →
  state (update_research_data f2 t2 (update_research_data f1 t1 w).1).1 =
    state (update_research_data f1 t1 (update_research_data f2 t2 w).1).1 ∧
  files (update_research_data f2 t2 (update_research_data f1 t1 w).1).1 =
    files (update_research_data f1 t1 (update_research_data f2 t2 w).1).1 ∧
  dirs (update_research_data f2 t2 (update_research_data f1 t1 w).1).1 =
    dirs (update_research_data f1 t1 (update_research_data f2 t2 w).1).1 ∧
  (update_research_data f2 t2 (update_research_data f1 t1 w).1).2 =
    (update_research_data f2 t2 w).2 ∧
  (update_research_data f1 t1 (update_research_data f2 t2 w).1).2 =
    (update_research_data f1 t1 w).2.
Proof.
  intros Hne.
  pose proof (update_research_data_other w f1 f2 t1 (not_eq_sym Hne)) as H21.
  pose proof (update_research_data_other w f2 f1 t2 Hne) as H12.
  destruct (update_research_data_state (update_research_data f1 t1 w).1 f2 t2)
    as (Hs2 & Hr2 & Hf2 & Hd2).
  destruct (update_research_data_state (update_research_data f2 t2 w).1 f1 t1)
    as (Hs1 & Hr1 & Hf1 & Hd1).
  destruct (update_research_data_state w f1 t1) as (Hsa & Hra & Hfa & Hda).
  destruct (update_research_data_state w f2 t2) as (Hsb & Hrb & Hfb & Hdb).
  rewrite Hs2, Hr2, Hf2, Hd2, Hs1, Hr1, Hf1, Hd1, H21, H12.
  rewrite Hsa, Hsb, Hra, Hrb, Hfa, Hfb, Hda, Hdb.
  repeat split.
  destruct (normalized (state w !! f1)), (normalized (state w !! f2)); try done.
  by apply insert_insert_ne.
Qed.

Lemma appends_to_distinct_fields_commute_witness :
  "pos_data" ≠ "neg_data" ∧
  state (update_research_data "neg_data" "B"
           (update_research_data "pos_data" "A" empty_world).1).1 =
  state (update_research_data "pos_data" "A"
           (update_research_data "neg_data" "B" empty_world).1).1.
Proof.
  split; [discriminate|].
  apply (appends_to_distinct_fields_commute empty_world "pos_data" "neg_data" "A" "B").
  discriminate.
Defined.

(** X6: a successful append makes the text of the field longer by the six
    characters of the separator and the length of the new text. *)
Theorem append_grows_by_separator_and_text (w : World) (field new_info s : string) :
  normalized (state w !! field) = Some s →
  ∃ s', state (update_research_data field new_info w).1 !! field = Some (PStr s') ∧
        String.length s' = String.length s + 6 + String.length new_info.
Proof.
  intros Hn. rewrite (update_research_data_ok _ _ _ _ Hn). cbn [fst state].
  eexists. split; [apply lookup_insert_eq|].
  rewrite !string_length_append.
  assert (String.length separator = 6) as -> by reflexivity. lia.
Qed.

Lemma append_grows_by_separator_and_text_witness :
  normalized (state empty_world !! "x") = Some "" ∧
  ∃ s', state (update_research_data "x" "A" empty_world).1 !! "x" = Some (PStr s') ∧
        String.length s' = String.length "" + 6 + String.length "A".
Proof.
  split; [reflexivity|].
  apply (append_grows_by_separator_and_text empty_world "x" "A" ""). reflexivity.
Defined.

(** * Further properties of [write_verdict_file] *)

Lemma write_verdict_file_raises (w : World) (content : string) :
  (state w !! "PROMPT" = Some PNone →
     write_verdict_file content w = (w, inl TypeError)) ∧
  (∀ l, state w !! "PROMPT" = Some (PList l) → last l = None →
     write_verdict_file content w = (w, inl IndexError)) ∧
  (∀ l v, state w !! "PROMPT" = Some (PList l) → last l = Some v → is_str v = false →
     write_verdict_file content w = (w, inl TypeError)).
Proof.
  unfold write_verdict_file, tool_bind, state_get. split; [|split].
  - by intros ->.
  - intros l -> Hl. cbn. unfold list_last. by rewrite Hl.
  - intros l v -> Hl Hv. cbn. unfold list_last. rewrite Hl. cbn.
    by destruct v.
Qed.

Lemma prompt_label_cases (v : option pyval) :
  (∃ topic, prompt_label v topic) ∨
  v = Some PNone ∨
  (∃ l, v = Some (PList l) ∧ last l = None) ∨
  (∃ l x, v = Some (PList l) ∧ last l = Some x ∧ is_str x = false).
Proof.
  destruct v as [[|s|l]|].
  - by right; left.
  - left. exists s. constructor.
  - destruct (last l) as [[|s|items]|] eqn:Hl.
    + right; right; right. by exists l, PNone.
    + left. exists s. by constructor.
    + right; right; right. by exists l, (PList items).
    + right; right; left. by exists l.
  - left. eexists. constructor.
Qed.

(** A call either finds a label and writes the file, or raises and leaves
    the world as it was. *)
Lemma write_verdict_file_cases (w : World) (content : string) :
  (∃ topic, prompt_label (state w !! "PROMPT") topic ∧
     write_verdict_file content w =
       (mkWorld (state w) (log w) (<[ verdict_path topic := content ]> (files w))
                ({[ "court_records" ]} ∪ dirs w),
        inr (<[ "file_path" := verdict_path topic ]> status_success))) ∨
  (∃ e, (¬ ∃ topic, prompt_label (state w !! "PROMPT") topic) ∧
     ∀ c, write_verdict_file c w = (w, inl e)).
Proof.
  destruct (write_verdict_file_raises w content) as (Hnone & Hempty & Hitem).
  destruct (prompt_label_cases (state w !! "PROMPT"))
    as [[topic Ht] | [Hv | [(l & Hv & Hl) | (l & x & Hv & Hl & Hx)]]].
  - left. exists topic. split; [done|]. by apply write_verdict_file_ok.
  - right. exists TypeError. split.
    + intros [topic Ht]. rewrite Hv in Ht. inversion Ht.
    + intros c. by apply write_verdict_file_raises.
  - right. exists IndexError. split.
    + intros [topic Ht]. rewrite Hv in Ht. inversion Ht. congruence.
    + intros c. by apply (write_verdict_file_raises w c) with l.
  - right. exists TypeError. split.
    + intros [topic Ht]. rewrite Hv in Ht. inversion Ht as [| |l' s Hs]. subst.
      rewrite Hl in Hs. by inversion Hs; subst.
    + intros c. by apply (write_verdict_file_raises w c) with l x.
Qed.

(** X7: when [PROMPT] holds [None], the empty list or a list whose last
    item is not a string, the verdict tool raises while it looks for the
    label, before it touches the file system: [TypeError] for [None] and
    for the item that is not a string, [IndexError] for the empty list,
    and no directory is made, no file is written, the world is as it
    was. *)
Theorem verdict_file_errors (w : World) (content : string) :
  (state w !! "PROMPT" = Some PNone →
     write_verdict_file content w = (w, inl TypeError)) ∧
  (state w !! "PROMPT" = Some (PList []) →
     write_verdict_file content w = (w, inl IndexError)) ∧
  (∀ l v, state w !! "PROMPT" = Some (PList l) → last l = Some v → is_str v = false →
     write_verdict_file content w = (w, inl TypeError)).
Proof.
  destruct (write_verdict_file_raises w content) as (Hnone & Hempty & Hitem).
  split; [done|]. split; [|done].
  intros Hv. by apply (Hempty []).
Qed.

Lemma verdict_file_errors_witness :
  state world_with_none_prompt !! "PROMPT" = Some PNone ∧
  write_verdict_file "v" world_with_none_prompt = (world_with_none_prompt, inl TypeError).
Proof.
  split; [reflexivity|].
  apply (proj1 (verdict_file_errors world_with_none_prompt "v")). reflexivity.
Defined.



(** X9: a second verdict replaces the first: writing [c1] and then [c2]
    leaves the same world and returns the same result as writing [c2]
    alone; the directory that exists already is no error. *)
Theorem verdict_file_last_write_wins (w : World) (c1 c2 : string) :
  write_verdict_file c2 (write_verdict_file c1 w).1 = write_verdict_file c2 w.
Proof.
  destruct (write_verdict_file_cases w c1) as [(topic & Ht & Hw1) | (e & _ & He)].
  - rewrite Hw1. cbn [fst].
    rewrite (write_verdict_file_ok _ c2 topic) by done.
    rewrite (write_verdict_file_ok w c2 topic) by done. cbn.
    assert ({[ "court_records" ]} ∪ ({[ "court_records" ]} ∪ dirs w)
            = {[ "court_records" ]} ∪ dirs w) as Hd
      by (by rewrite (assoc_L (∪)), (idemp_L (∪))).
    by rewrite insert_insert_eq, Hd.
  - by rewrite He.
Qed.

(** X10: when the verdict tool returns, it reports success and a path,
    the file at that path holds exactly the content, and the directory
    [court_records] exists. *)
Theorem verdict_file_round_trip (w : World) (content : string) (r : gmap string string) :
  (write_verdict_file content w).2 = inr r →
  r !! "status" = Some "success" ∧
  ∃ path, r !! "file_path" = Some path ∧
          files (write_verdict_file content w).1 !! path = Some content ∧
          "court_records" ∈ dirs (write_verdict_file content w).1.
Proof.
  destruct (write_verdict_file_cases w content)
    as [(topic & _ & ->) | (e & _ & ->)]; cbn; [|done].
  intros [= <-]. split; [done|]. exists (verdict_path topic).
  rewrite !lookup_insert_eq. split; [done|]. split; [done|]. set_solver.
Qed.

Lemma verdict_file_round_trip_witness :
  (write_verdict_file "v" world_with_prompt).2 =
    inr (<[ "file_path" := "court_records/Marie_Curie.txt" ]> status_success) ∧
  ∃ path, (<[ "file_path" := "court_records/Marie_Curie.txt" ]> status_success)
            !! "file_path" = Some path ∧
          files (write_verdict_file "v" world_with_prompt).1 !! path = Some "v" ∧
          "court_records" ∈ dirs (write_verdict_file "v" world_with_prompt).1.
Proof.
  assert ((write_verdict_file "v" world_with_prompt).2 =
            inr (<[ "file_path" := "court_records/Marie_Curie.txt" ]> status_success)) as H
    by reflexivity.
  split; [exact H|].
  apply (verdict_file_round_trip world_with_prompt "v" _ H).
Defined.

(** * Further properties of the file name *)

Lemma chars_app (a b : string) : chars (a +:+ b) = chars a ++ chars b.
Proof.
  induction a as [|x a IH]; [done|].
  change (x :: chars (a +:+ b) = x :: (chars a ++ chars b)). by rewrite IH.
Qed.

Lemma string_of_chars_app (x y : list ascii) :
  String.string_of_list_ascii (x ++ y) =
  String.string_of_list_ascii x +:+ String.string_of_list_ascii y.
Proof.
  induction x as [|c x IH]; [done|]. cbn [app String.string_of_list_ascii].
  rewrite IH. done.
Qed.

Lemma chars_clean_name (topic : string) : chars (clean_name topic) = clean_chars (chars topic).
Proof. apply clean_name_chars. Qed.

Lemma chars_inj (a b : string) : chars a = chars b → a = b.
Proof.
  intros H. rewrite <- (String.string_of_list_ascii_of_string a),
    <- (String.string_of_list_ascii_of_string b). unfold chars in H. by rewrite H.
Qed.

Lemma string_length_chars (s : string) : String.length s = length (chars s).
Proof. induction s as [|c s IH]; [done|]. cbn. by rewrite IH. Qed.

(** The words of a label. *)
Lemma alnum_words_go_word (w rest cur : list ascii) :
  forallb is_alnum w = true →
  alnum_words_go cur (w ++ rest) = alnum_words_go (cur ++ w) rest.
Proof.
  revert cur. induction w as [|c w IH]; intros cur Hw.
  - by rewrite app_nil_r.
  - cbn [forallb] in Hw. apply andb_prop in Hw as [Hc Hw].
    cbn [app alnum_words_go]. rewrite Hc, IH by done.
    by rewrite <- app_assoc.
Qed.

Lemma alnum_words_go_sep (s1 s2 cur : list ascii) (c : ascii) :
  is_alnum c = false →
  alnum_words_go cur (s1 ++ c :: s2) = alnum_words_go cur s1 ++ alnum_words_go [] s2.
Proof.
  intros Hc. revert cur. induction s1 as [|x s1 IH]; intros cur.
  - cbn [app alnum_words_go]. by rewrite Hc.
  - cbn [app alnum_words_go]. destruct (is_alnum x); [apply IH|].
    by rewrite IH, app_assoc.
Qed.

Lemma alnum_words_none (s : list ascii) :
  alnum_words s = [] ↔ forallb not_alnum s = true.
Proof.
  unfold alnum_words. induction s as [|c s IH]; [done|].
  cbn [alnum_words_go forallb app]. unfold not_alnum at 1.
  destruct (is_alnum c); cbn [negb andb].
  - split; [|done]. intros H. by apply alnum_words_go_nonempty in H.
  - apply IH.
Qed.

Lemma alnum_words_junk_l (j s : list ascii) :
  forallb not_alnum j = true → alnum_words (j ++ s) = alnum_words s.
Proof.
  unfold alnum_words. induction j as [|c j IH]; [done|].
  cbn [forallb app alnum_words_go]. unfold not_alnum at 1.
  destruct (is_alnum c); [done|]. apply IH.
Qed.

Lemma alnum_words_junk_r (s j : list ascii) :
  forallb not_alnum j = true → alnum_words (s ++ j) = alnum_words s.
Proof.
  destruct j as [|c j]; [by rewrite app_nil_r|].
  cbn [forallb]. intros [Hc Hj]%andb_prop.
  apply negb_true_iff in Hc. unfold alnum_words.
  rewrite alnum_words_go_sep by done.
  apply alnum_words_none in Hj. unfold alnum_words in Hj.
  by rewrite Hj, app_nil_r.
Qed.

Lemma alnum_words_between (a j b : list ascii) :
  j ≠ [] → forallb not_alnum j = true →
  alnum_words (a ++ j ++ b) = alnum_words a ++ alnum_words b.
Proof.
  destruct j as [|c j]; [done|]. intros _.
  cbn [forallb]. intros [Hc Hj]%andb_prop.
  apply negb_true_iff in Hc. unfold alnum_words. cbn [app].
  rewrite alnum_words_go_sep by done. f_equal.
  by apply alnum_words_junk_l.
Qed.

Lemma alnum_words_words (s : list ascii) : Forall is_word (alnum_words s).
Proof. by apply alnum_words_go_words. Qed.

(** Reading the words back from their join. *)
Lemma alnum_words_go_joined (ws : list (list ascii)) (w : list ascii) :
  w ≠ [] → Forall is_word ws →
  alnum_words_go w (concat (map (cons "_"%char) ws)) = w :: ws.
Proof.
  intros Hw Hws. revert w Hw.
  induction Hws as [|w' ws [Hne' Hw'] _ IH]; intros w Hw.
  - cbn. by destruct w.
  - cbn [map concat app alnum_words_go].
    replace (is_alnum "_") with false by (by vm_compute).
    rewrite alnum_words_go_word by done. cbn [app].
    rewrite IH by done. by destruct w.
Qed.

Lemma alnum_words_join (ws : list (list ascii)) :
  Forall is_word ws → alnum_words (join_underscore ws) = ws.
Proof.
  intros Hws. destruct Hws as [|w ws [Hne Hw] Hws]; [done|].
  unfold alnum_words. cbn [join_underscore].
  rewrite alnum_words_go_word by done. cbn [app].
  by apply alnum_words_go_joined.
Qed.

Lemma join_underscore_app (ws1 ws2 : list (list ascii)) :
  ws1 ≠ [] → ws2 ≠ [] →
  join_underscore (ws1 ++ ws2) =
  join_underscore ws1 ++ "_"%char :: join_underscore ws2.
Proof.
  destruct ws1 as [|w ws1]; [done|]. destruct ws2 as [|w2 ws2]; [done|]. intros _ _.
  cbn [app join_underscore]. rewrite map_app, concat_app, <- app_assoc.
  by rewrite join_underscore_cons.
Qed.

Lemma join_underscore_nil (ws : list (list ascii)) :
  Forall is_word ws → join_underscore ws = [] → ws = [].
Proof.
  intros Hws. destruct Hws as [|w ws [Hne _] _]; [done|].
  cbn [join_underscore]. by destruct w.
Qed.

Lemma clean_chars_nil (s : list ascii) : clean_chars s = [] ↔ alnum_words s = [].
Proof.
  rewrite clean_chars_collapsed. unfold collapsed_name. split.
  - apply join_underscore_nil, alnum_words_words.
  - by intros ->.
Qed.

Lemma clean_chars_idemp (s : list ascii) : clean_chars (clean_chars s) = clean_chars s.
Proof.
  rewrite !clean_chars_collapsed. unfold collapsed_name.
  by rewrite alnum_words_join by apply alnum_words_words.
Qed.

(** X11: deriving the name is idempotent: a name already derived is kept
    as it is. *)
Theorem clean_name_idempotent (topic : string) :
  clean_name (clean_name topic) = clean_name topic.
Proof. apply chars_inj. by rewrite !chars_clean_name, clean_chars_idemp. Qed.

Lemma clean_name_ignores_outer_punctuation_aux (before topic after : string) :
  forallb not_alnum (chars before) = true →
  forallb not_alnum (chars after) = true →
  clean_name (before +:+ topic +:+ after) = clean_name topic.
Proof.
  intros Hb Ha. apply chars_inj.
  rewrite !chars_clean_name, !chars_app, !clean_chars_collapsed. unfold collapsed_name.
  by rewrite alnum_words_junk_l, alnum_words_junk_r.
Qed.

Lemma clean_name_ignores_prefix (before topic : string) :
  forallb not_alnum (chars before) = true →
  clean_name (before +:+ topic) = clean_name topic.
Proof.
  intros Hb. apply chars_inj.
  rewrite !chars_clean_name, !chars_app, !clean_chars_collapsed. unfold collapsed_name.
  by rewrite alnum_words_junk_l.
Qed.

(** X12: characters that are not alphanumeric before and after a label do
    not count: such labels are written to the same file. *)
Theorem clean_name_ignores_outer_punctuation (before topic after : string) :
  forallb not_alnum (chars before) = true →
  forallb not_alnum (chars after) = true →
  clean_name (before +:+ topic +:+ after) = clean_name topic.
Proof. apply clean_name_ignores_outer_punctuation_aux. Qed.

Lemma clean_name_ignores_outer_punctuation_witness :
  forallb not_alnum (chars "  (") = true ∧
  forallb not_alnum (chars ")!") = true ∧
  clean_name ("  (" +:+ "Ada Lovelace" +:+ ")!") = clean_name "Ada Lovelace".
Proof.
  split; [reflexivity|]. split; [reflexivity|].
  apply (clean_name_ignores_outer_punctuation "  (" "Ada Lovelace" ")!"); reflexivity.
Defined.

(** X13: two labels that both have a name, put together with characters
    that are not alphanumeric between them, get the two names joined by
    one underscore. *)
Theorem clean_name_of_joined_labels (a between b : string) :
  between ≠ "" →
  forallb not_alnum (chars between) = true →
  clean_name a ≠ "" →
  clean_name b ≠ "" →
  clean_name (a +:+ between +:+ b) = clean_name a +:+ "_" +:+ clean_name b.
Proof.
  intros Hne Hj Ha Hb. apply chars_inj.
  rewrite !chars_app, !chars_clean_name, !chars_app, !clean_chars_collapsed.
  unfold collapsed_name.
  rewrite alnum_words_between; [|by destruct between|done].
  apply join_underscore_app.
  - intros Hw. apply Ha. apply chars_inj.
    rewrite chars_clean_name. by apply clean_chars_nil.
  - intros Hw. apply Hb. apply chars_inj.
    rewrite chars_clean_name. by apply clean_chars_nil.
Qed.

Lemma clean_name_of_joined_labels_witness :
  separator ≠ "" ∧
  forallb not_alnum (chars separator) = true ∧
  clean_name "Ada" ≠ "" ∧
  clean_name "more on Ada" ≠ "" ∧
  clean_name ("Ada" +:+ separator +:+ "more on Ada") = "Ada_more_on_Ada".
Proof.
  split; [discriminate|]. split; [reflexivity|].
  split; [discriminate|]. split; [discriminate|].
  apply (clean_name_of_joined_labels "Ada" separator "more on Ada");
    [discriminate | reflexivity | discriminate | discriminate].
Defined.

(** X14: the name is empty exactly when the label has no letter and no
    digit (the empty label included); the verdict then goes to the file
    [court_records/.txt]. *)
Theorem clean_name_empty_iff (topic content : string) (w : World) :
  (clean_name topic = "" ↔ forallb not_alnum (chars topic) = true) ∧
  (forallb not_alnum (chars topic) = true →
   state w !! "PROMPT" = Some (PStr topic) →
   file_path_of (write_verdict_file content w).2 = Some "court_records/.txt").
Proof.
  assert (clean_name topic = "" ↔ forallb not_alnum (chars topic) = true) as Hiff.
  { rewrite <- alnum_words_none, <- clean_chars_nil, <- chars_clean_name. split.
    - by intros ->.
    - intros H. by apply chars_inj. }
  split; [done|]. intros Hj Hp.
  rewrite (write_verdict_file_ok w content topic) by (rewrite Hp; constructor).
  cbn. rewrite lookup_insert_eq. unfold verdict_path.
  apply Hiff in Hj. by rewrite Hj.
Qed.

Lemma clean_name_empty_iff_witness :
  forallb not_alnum (chars "?! ...") = true ∧
  state world_with_blank_prompt !! "PROMPT" = Some (PStr "?! ...") ∧
  file_path_of (write_verdict_file "v" world_with_blank_prompt).2 =
    Some "court_records/.txt".
Proof.
  split; [reflexivity|]. split; [reflexivity|].
  apply (proj2 (clean_name_empty_iff "?! ..." "v" world_with_blank_prompt)); reflexivity.
Defined.

Lemma concat_alnum_words_go (s cur : list ascii) :
  concat (alnum_words_go cur s) = cur ++ List.filter is_alnum s.
Proof.
  revert cur. induction s as [|c s IH]; intros cur; cbn [alnum_words_go List.filter].
  - destruct cur; cbn; by rewrite ?app_nil_r.
  - destruct (is_alnum c).
    + by rewrite IH, <- app_assoc.
    + rewrite concat_app, IH. destruct cur; cbn; by rewrite ?app_nil_r.
Qed.

Lemma filter_alnum_word (w : list ascii) :
  forallb is_alnum w = true → List.filter is_alnum w = w.
Proof.
  induction w as [|c w IH]; [done|]. cbn. intros [Hc Hw]%andb_prop.
  by rewrite Hc, IH.
Qed.

Lemma filter_alnum_separated (ws : list (list ascii)) :
  Forall is_word ws →
  List.filter is_alnum (concat (map (cons "_"%char) ws)) = concat ws.
Proof.
  induction 1 as [|w ws [_ Hw] _ IH]; [done|]. cbn [map concat].
  rewrite List.filter_app, IH. cbn [List.filter app].
  replace (is_alnum "_") with false by (by vm_compute).
  by rewrite filter_alnum_word.
Qed.

Lemma filter_alnum_join (ws : list (list ascii)) :
  Forall is_word ws → List.filter is_alnum (join_underscore ws) = concat ws.
Proof.
  intros Hws. destruct Hws as [|w ws [_ Hw] Hws]; [done|].
  cbn [join_underscore concat].
  by rewrite List.filter_app, filter_alnum_word, filter_alnum_separated.
Qed.

(** X15: the name keeps every letter and digit of the label, in the order
    of the label, and adds none. *)
Theorem clean_name_keeps_letters_and_digits (topic : string) :
  List.filter is_alnum (chars (clean_name topic)) = List.filter is_alnum (chars topic).
Proof.
  rewrite chars_clean_name, clean_chars_collapsed. unfold collapsed_name.
  rewrite filter_alnum_join by apply alnum_words_words.
  unfold alnum_words. by rewrite concat_alnum_words_go.
Qed.

Lemma length_re_sub_class (p : ascii → bool) (repl : ascii) (s : list ascii) :
  length (re_sub_class p repl s) = length s.
Proof. induction s as [|c s IH]; [done|]. cbn. by rewrite IH. Qed.

Lemma length_re_sub_runs (p : ascii → bool) (repl : ascii) (b : bool) (s : list ascii) :
  length (re_sub_runs p repl b s) ≤ length s.
Proof.
  revert b. induction s as [|c s IH]; intros b; [done|]. cbn.
  destruct (p c); [destruct b|]; cbn.
  - pose proof (IH true). lia.
  - pose proof (IH true). lia.
  - pose proof (IH false). lia.
Qed.

Lemma length_lstrip (p : ascii → bool) (s : list ascii) :
  length (lstrip p s) ≤ length s.
Proof.
  induction s as [|c s IH]; [done|]. cbn. destruct (p c); cbn; lia.
Qed.

Lemma length_rstrip (p : ascii → bool) (s : list ascii) :
  length (rstrip p s) ≤ length s.
Proof.
  unfold rstrip. rewrite length_rev.
  pose proof (length_lstrip p (rev s)) as H. by rewrite length_rev in H.
Qed.

(** X16: the name is never longer than the label. *)
Theorem clean_name_not_longer (topic : string) :
  String.length (clean_name topic) ≤ String.length topic.
Proof.
  rewrite !string_length_chars, chars_clean_name.
  unfold clean_chars, strip. cbn zeta.
  etrans; [apply length_rstrip|]. etrans; [apply length_lstrip|].
  etrans; [apply length_re_sub_runs|]. by rewrite length_re_sub_class.
Qed.

Lemma re_sub_class_name_chars (l : list ascii) :
  Forall name_char l → re_sub_class not_alnum "_" l = l.
Proof.
  induction 1 as [|c l Hc _ IH]; [done|]. cbn. rewrite IH. f_equal.
  unfold not_alnum. destruct Hc as [-> | ->]; [done|]. by vm_compute.
Qed.

Lemma is_underscore_eq (c : ascii) : is_underscore c = true → c = "_"%char.
Proof. unfold is_underscore. by destruct (decide (c = "_"%char)). Qed.

Lemma isolated_not_adjacent (l : list ascii) (b : bool) :
  ¬ adjacent_underscores l →
  (b = true → head l ≠ Some "_"%char) →
  isolated b l = true.
Proof.
  revert b. induction l as [|c l IH]; intros b Hadj Hb; [done|].
  assert (¬ adjacent_underscores l) as Hadj'.
  { intros (l1 & l2 & ->). apply Hadj. by exists (c :: l1), l2. }
  cbn [isolated]. destruct (is_underscore c) eqn:Hc.
  - apply is_underscore_eq in Hc as ->.
    destruct b; [by exfalso; apply Hb|]. cbn [negb andb].
    apply IH; [done|]. intros _ Hhd.
    destruct l as [|c' l]; [done|]. cbn in Hhd. injection Hhd as ->.
    apply Hadj. by exists [], l.
  - by apply IH.
Qed.

Lemma re_sub_runs_isolated (l : list ascii) (b : bool) :
  isolated b l = true → re_sub_runs is_underscore "_" b l = l.
Proof.
  revert b. induction l as [|c l IH]; intros b; [done|]. cbn.
  destruct (is_underscore c) eqn:Hc.
  - intros [Hb Hl]%andb_prop. apply negb_true_iff in Hb as ->.
    apply is_underscore_eq in Hc as ->. by rewrite IH.
  - intros Hl. by rewrite IH.
Qed.

Lemma lstrip_no_head (l : list ascii) :
  head l ≠ Some "_"%char → lstrip is_underscore l = l.
Proof.
  destruct l as [|c l]; [done|]. cbn. intros Hhd.
  destruct (is_underscore c) eqn:Hc; [|done].
  apply is_underscore_eq in Hc as ->. done.
Qed.

Lemma rstrip_no_last (l : list ascii) :
  last l ≠ Some "_"%char → rstrip is_underscore l = l.
Proof.
  destruct (last l) as [c|] eqn:Hl.
  - apply last_Some in Hl as [l' ->]. intros Hc.
    rewrite rstrip_app. cbn [forallb].
    destruct (is_underscore c) eqn:Hus.
    + apply is_underscore_eq in Hus as ->. done.
    + cbn [andb]. by rewrite rstrip_cons, Hus.
  - apply last_None in Hl as ->. done.
Qed.

(** X17: the labels that are their own name are exactly the strings of
    ASCII letters, digits and underscores in which no two underscores are
    adjacent and none is first or last. *)
Theorem clean_name_fixed_points (topic : string) :
  clean_name topic = topic ↔
  Forall name_char (chars topic) ∧
  ¬ adjacent_underscores (chars topic) ∧
  head (chars topic) ≠ Some "_"%char ∧
  last (chars topic) ≠ Some "_"%char.
Proof.
  split.
  - intros Hfix.
    assert (chars topic = clean_chars (chars topic)) as Heq
      by (by rewrite <- chars_clean_name, Hfix).
    rewrite Heq. pose proof (clean_chars_ends (chars topic)) as [Hhd Hlast].
    rewrite clean_chars_collapsed in Hhd, Hlast |- *. unfold collapsed_name in *.
    pose proof (alnum_words_words (chars topic)) as Hws.
    split; [by apply join_underscore_name_chars|].
    split; [by apply join_underscore_isolated|]. done.
  - intros (Hchars & Hadj & Hhd & Hlast). apply chars_inj.
    rewrite chars_clean_name. unfold clean_chars, strip. cbn zeta.
    rewrite re_sub_class_name_chars by done.
    rewrite re_sub_runs_isolated by (by apply isolated_not_adjacent).
    rewrite lstrip_no_head by done. by apply rstrip_no_last.
Qed.

Lemma clean_name_fixed_points_witness :
  (Forall name_char (chars "Marie_Curie") ∧
   ¬ adjacent_underscores (chars "Marie_Curie") ∧
   head (chars "Marie_Curie") ≠ Some "_"%char ∧
   last (chars "Marie_Curie") ≠ Some "_"%char) ∧
  clean_name "Marie_Curie" = "Marie_Curie".
Proof.
  assert (clean_name "Marie_Curie" = "Marie_Curie") as Hfix by reflexivity.
  split; [|exact Hfix].
  apply (proj1 (clean_name_fixed_points "Marie_Curie")). exact Hfix.
Defined.

(** * How the tools work together *)

(** X18: seeding an absent (or [None]) [PROMPT] by an append instead of an
    overwrite names the same verdict file: the separator the append puts
    in front of the subject has no letter and no digit. *)
Theorem prompt_seeded_by_append_names_same_file (w : World) (subject content : string) :
  state w !! "PROMPT" = None ∨ state w !! "PROMPT" = Some PNone →
  file_path_of (write_verdict_file content
                  (update_research_data "PROMPT" subject w).1).2 =
    Some ("court_records/" +:+ clean_name subject +:+ ".txt") ∧
  file_path_of (write_verdict_file content
                  (set_state_value "PROMPT" (PStr subject) w).1).2 =
    Some ("court_records/" +:+ clean_name subject +:+ ".txt").
Proof.
  intros Habs.
  assert (normalized (state w !! "PROMPT") = Some "") as Hn
    by (by destruct Habs as [-> | ->]).
  split.
  - rewrite (update_research_data_ok _ _ _ _ Hn). cbn [fst].
    rewrite (write_verdict_file_ok _ content ("" +:+ separator +:+ subject)).
    + cbn. rewrite lookup_insert_eq. unfold verdict_path. do 3 f_equal.
      change ("" +:+ separator +:+ subject) with (separator +:+ subject).
      by apply clean_name_ignores_prefix.
    + cbn. rewrite lookup_insert_eq. constructor.
  - rewrite (write_verdict_file_ok _ content subject).
    + cbn. by rewrite lookup_insert_eq.
    + cbn. rewrite lookup_insert_eq. constructor.
Qed.

Lemma prompt_seeded_by_append_names_same_file_witness :
  (state empty_world !! "PROMPT" = None ∨ state empty_world !! "PROMPT" = Some PNone) ∧
  file_path_of (write_verdict_file "v"
                  (update_research_data "PROMPT" "Marie Curie" empty_world).1).2 =
    Some "court_records/Marie_Curie.txt".
Proof.
  split; [left; reflexivity|].
  apply (prompt_seeded_by_append_names_same_file empty_world "Marie Curie" "v").
  left; reflexivity.
Defined.

Lemma write_verdict_file_result (w w' : World) (content content' : string) :
  state w !! "PROMPT" = state w' !! "PROMPT" →
  (write_verdict_file content w).2 = (write_verdict_file content' w').2.
Proof.
  intros Heq. unfold write_verdict_file, tool_bind, state_get.
  cbn -[clean_name os_path_join]. rewrite Heq.
  destruct (state w' !! "PROMPT") as [[|s|l]|]; cbn -[clean_name os_path_join]; try done.
  unfold list_last. destruct (last l) as [[|s|items]|]; by cbn -[clean_name os_path_join].
Qed.

(** X19: the path the verdict tool returns depends on the value of
    [PROMPT] alone: two calls that return, in states with the same
    [PROMPT], return the same result, whatever the contents, the other
    fields and the logs are; and a [TypeError] or [IndexError] that one
    raises, the other raises too. *)
Theorem verdict_path_depends_on_prompt_only (w w' : World) (content content' : string) :
  state w !! "PROMPT" = state w' !! "PROMPT" →
  (∀ r r', (write_verdict_file content w).2 = inr r →
           (write_verdict_file content' w').2 = inr r' → r = r') ∧
  ((write_verdict_file content w).2 = inl TypeError →
   (write_verdict_file content' w').2 = inl TypeError) ∧
  ((write_verdict_file content w).2 = inl IndexError →
   (write_verdict_file content' w').2 = inl IndexError).
Proof.
  intros Heq. rewrite (write_verdict_file_result w w' content content' Heq).
  split; [|done]. intros r r' Hr Hr'. congruence.
Qed.

Lemma verdict_path_depends_on_prompt_only_witness :
  (state world_with_prompt !! "PROMPT" =
     state (update_research_data "pos_data" "A" world_with_prompt).1 !! "PROMPT" ∧
   (write_verdict_file "v" world_with_prompt).2 =
     inr (<[ "file_path" := "court_records/Marie_Curie.txt" ]> status_success) ∧
   (write_verdict_file "other" (update_research_data "pos_data" "A" world_with_prompt).1).2 =
     inr (<[ "file_path" := "court_records/Marie_Curie.txt" ]> status_success) ∧
   <[ "file_path" := "court_records/Marie_Curie.txt" ]> status_success =
     <[ "file_path" := "court_records/Marie_Curie.txt" ]> status_success) ∧
  (state world_with_none_prompt !! "PROMPT" =
     state (update_research_data "pos_data" "A" world_with_none_prompt).1 !! "PROMPT" ∧
   (write_verdict_file "v" world_with_none_prompt).2 = inl TypeError ∧
   (write_verdict_file "other"
      (update_research_data "pos_data" "A" world_with_none_prompt).1).2 = inl TypeError).
Proof.
  split.
  - split; [reflexivity|]. split; [reflexivity|]. split; [reflexivity|].
    apply (proj1 (verdict_path_depends_on_prompt_only world_with_prompt
                    (update_research_data "pos_data" "A" world_with_prompt).1 "v" "other"
                    eq_refl));
      reflexivity.
  - split; [reflexivity|]. split; [reflexivity|].
    apply (proj1 (proj2 (verdict_path_depends_on_prompt_only world_with_none_prompt
                    (update_research_data "pos_data" "A" world_with_none_prompt).1
                    "v" "other" eq_refl))).
    reflexivity.
Defined.

(** X20: overwrites compose as assignments do: on one field the last
    value wins and the earlier one leaves no trace; on two different
    fields the order does not matter. *)
Theorem overwrites_compose (w : World) (f1 f2 : string) (v1 v2 : pyval) :
  set_state_value f1 v2 (set_state_value f1 v1 w).1 = set_state_value f1 v2 w ∧
  (f1 ≠ f2 →
   set_state_value f2 v2 (set_state_value f1 v1 w).1 =
   set_state_value f1 v1 (set_state_value f2 v2 w).1).
Proof.
  unfold set_state_value, tool_bind, state_set, tool_ret, with_state. cbn. split.
  - by rewrite insert_insert_eq.
  - intros Hne. by rewrite (insert_insert_ne _ f2 f1).
Qed.

Lemma overwrites_compose_witness :
  "PROMPT" ≠ "judge_feedback" ∧
  set_state_value "judge_feedback" PNone (set_state_value "PROMPT" (PStr "A") empty_world).1 =
  set_state_value "PROMPT" (PStr "A") (set_state_value "judge_feedback" PNone empty_world).1.
Proof.
  split; [discriminate|].
  apply (proj2 (overwrites_compose empty_world "PROMPT" "judge_feedback" (PStr "A") PNone)).
  discriminate.
Defined.

Lemma clean_name_name_chars (topic : string) : Forall name_char (chars (clean_name topic)).
Proof.
  rewrite chars_clean_name, clean_chars_collapsed.
  apply join_underscore_name_chars, alnum_words_words.
Qed.

(** X21: whatever the label is, the file is written directly in
    [court_records]: the returned path is the directory, one name and
    [.txt], and the name has no slash and no dot, so no label can lead the
    write into another directory. *)
Theorem verdict_path_confined (w : World) (content : string) (r : gmap string string) :
  (write_verdict_file content w).2 = inr r →
  ∃ name, r !! "file_path" = Some ("court_records/" +:+ name +:+ ".txt") ∧
          ("/"%char ∉ chars name) ∧ ("."%char ∉ chars name).
Proof.
  destruct (write_verdict_file_cases w content)
    as [(topic & _ & ->) | (e & _ & ->)]; cbn; [|done].
  intros [= <-]. exists (clean_name topic).
  rewrite lookup_insert_eq. split; [done|].
  pose proof (clean_name_name_chars topic) as Hn.
  rewrite Forall_forall in Hn.
  split; intros Hin; apply Hn in Hin;
    by destruct Hin as [Hin|Hin]; vm_compute in Hin.
Qed.

Lemma verdict_path_confined_witness :
  (write_verdict_file "v" (with_state (insert "PROMPT" (PStr "../../etc/passwd")) empty_world)).2 =
    inr (<[ "file_path" := "court_records/etc_passwd.txt" ]> status_success) ∧
  ∃ name, (<[ "file_path" := "court_records/etc_passwd.txt" ]> status_success)
            !! "file_path" = Some ("court_records/" +:+ name +:+ ".txt") ∧
          ("/"%char ∉ chars name) ∧ ("."%char ∉ chars name).
Proof.
  assert ((write_verdict_file "v"
             (with_state (insert "PROMPT" (PStr "../../etc/passwd")) empty_world)).2 =
          inr (<[ "file_path" := "court_records/etc_passwd.txt" ]> status_success)) as H
    by reflexivity.
  split; [exact H|].
  apply (verdict_path_confined _ "v" _ H).
Defined.
